(** * A live voice assistant: playback scheduling, transcript reconciliation,
      session teardown and the telephony request

    A shallow embedding of [services/gemini.ts], of the transcript callback
    of [App.tsx] and of [services/twilio.ts].

    Conventions.
    - Times of the audio clock ([AudioContext.currentTime], buffer durations)
      are rationals; the development only uses their order, [Math.max] and
      addition.
    - A [string] stands for a JavaScript string whose code units are all
      below 256, one character per code unit.
    - Everything the handlers obtain from the platform while they run (clock
      readings, the decoded buffer, [new Date()]) is passed in as a record of
      readings, and everything they do to the platform is returned as a log
      of actions. *)

From Stdlib Require Import QArith Qminmax Lqa.
From stdpp Require Import base list strings numbers pretty.

Local Open Scope Q_scope.
Local Open Scope nat_scope.

(** ** types.ts *)

Inductive Role := user | assistant.

#[global] Instance Role_eq_dec : EqDecision Role.
Proof. solve_decision. Defined.

Record TranscriptItem := {
  role : Role;
  text : string;
  timestamp : N;
  isPartial : bool
}.

Record TwilioConfig := {
  accountSid : string;
  authToken : string;
  myPhoneNumber : string;
  verifiedCallerId : option string
}.

(** ** JavaScript strings *)

Module Js.

(** Truthiness of a string: every string but the empty one. *)
Definition truthy (s : string) : bool := bool_decide (s ≠ "").

(** Code units below 256 that [String.prototype.trim] strips: TAB, LF, VT,
    FF, CR, SPACE and NBSP. *)
Definition isWhiteSpace (c : Ascii.ascii) : bool :=
  let n := Ascii.nat_of_ascii c in
  ((9 <=? n) && (n <=? 13)) || (n =? 32) || (n =? 160).

Fixpoint trimStart (s : string) : string :=
  match s with
  | EmptyString => EmptyString
  | String c s' => if isWhiteSpace c then trimStart s' else s
  end.

Definition trimEnd (s : string) : string :=
  String.rev (trimStart (String.rev s)).

Definition trim (s : string) : string := trimEnd (trimStart s).

End Js.

(** ** services/gemini.ts *)

Module Gemini.

(** Identity of a platform resource (an audio context, a node, a track). *)
Definition Handle := N.

(** The object the live connection resolves to; [stopLiveSession] asks
    whether it has a [close] method. *)
Record SessionObject := { closeIsFunction : bool }.

(** What [decodeAudioData] resolves to. *)
Record AudioBuffer := { duration : Q }.

(** The fields of a [LiveServerMessage] that [onmessage] inspects. *)
Record LiveServerMessage := {
  (* serverContent?.modelTurn?.parts?.[0]?.inlineData?.data *)
  inlineData : option string;
  (* serverContent?.outputTranscription, given by its text *)
  outputTranscription : option string;
  (* serverContent?.inputTranscription, given by its text *)
  inputTranscription : option string;
  turnComplete : bool;
  interrupted : bool
}.

(** The module-level variables of gemini.ts (lines 9-15) together with the
    two transcription buffers that [startLiveSession] declares for its
    callbacks (lines 61-62). *)
Record State := {
  audioContext : option Handle;
  inputAudioContext : option Handle;
  mediaStream : option (list Handle);
  processor : option Handle;
  sourceInput : option Handle;
  nextStartTime : Q;
  session : option SessionObject;
  currentInputTranscription : string;
  currentOutputTranscription : string
}.

Definition set_nextStartTime (t : Q) (st : State) : State :=
  {| audioContext := audioContext st;
     inputAudioContext := inputAudioContext st;
     mediaStream := mediaStream st;
     processor := processor st;
     sourceInput := sourceInput st;
     nextStartTime := t;
     session := session st;
     currentInputTranscription := currentInputTranscription st;
     currentOutputTranscription := currentOutputTranscription st |}.

Definition set_currentInputTranscription (s : string) (st : State) : State :=
  {| audioContext := audioContext st;
     inputAudioContext := inputAudioContext st;
     mediaStream := mediaStream st;
     processor := processor st;
     sourceInput := sourceInput st;
     nextStartTime := nextStartTime st;
     session := session st;
     currentInputTranscription := s;
     currentOutputTranscription := currentOutputTranscription st |}.

Definition set_currentOutputTranscription (s : string) (st : State) : State :=
  {| audioContext := audioContext st;
     inputAudioContext := inputAudioContext st;
     mediaStream := mediaStream st;
     processor := processor st;
     sourceInput := sourceInput st;
     nextStartTime := nextStartTime st;
     session := session st;
     currentInputTranscription := currentInputTranscription st;
     currentOutputTranscription := s |}.

(** Calls made by the handlers, in the order they are made. *)
Inductive Action :=
  | OnAudioData (amplitude : Q)
  | SourceStart (buffer : AudioBuffer) (when : Q)
  | OnTranscriptUpdate (text : string) (isUser isFinal : bool).

(** What a run of [onmessage] that gets through the decoding reads from the
    platform. *)
Record Readings := {
  (* audioContext.currentTime at line 102 *)
  currentTime_chunk : Q;
  (* the buffer decodeAudioData resolves to, lines 104-109 *)
  decoded : AudioBuffer;
  (* audioContext.currentTime at line 145 *)
  currentTime_interrupt : Q;
  (* new Date() in the k-th transcript callback of this run *)
  date : nat → N
}.

(** A block of statements: the new state and the calls it made. *)
Definition Block (A : Type) := State → State * list A.

Definition skip {A} : Block A := λ st, (st, []).

Definition seq {A} (b1 b2 : Block A) : Block A := λ st,
  let '(st1, a1) := b1 st in
  let '(st2, a2) := b2 st1 in
  (st2, a1 ++ a2).

Infix ";;;" := seq (at level 61, left associativity).

(** startLiveSession, lines 48-62: the state once both audio contexts and
    the microphone stream exist. *)
Definition startLiveSession (inCtx outCtx : Handle) (currentTime : Q)
    (stream : list Handle) (st : State) : State :=
  {| audioContext := Some outCtx;
     inputAudioContext := Some inCtx;
     mediaStream := Some stream;
     processor := processor st;
     sourceInput := sourceInput st;
     nextStartTime := currentTime;
     session := session st;
     currentInputTranscription := "";
     currentOutputTranscription := "" |}.

(** onmessage, lines 96-116, where the decoding of lines 104-109 resolves
    to [decoded r]; [onmessageAsync] below has the run in which it fails. *)
Definition handleAudioOutput (m : LiveServerMessage) (r : Readings) : Block Action := λ st,
  match inlineData m, audioContext st with
  | Some base64Audio, Some _ =>
      if Js.truthy base64Audio then
        let start := Qmax (nextStartTime st) (currentTime_chunk r) in
        (set_nextStartTime (start + duration (decoded r))%Q st,
         [OnAudioData (1 # 2); SourceStart (decoded r) start])
      else (st, [])
  | _, _ => (st, [])
  end.

(** onmessage, lines 118-127. *)
Definition handleTranscriptions (m : LiveServerMessage) : Block Action := λ st,
  match outputTranscription m with
  | Some text =>
      let cur := currentOutputTranscription st +:+ text in
      (set_currentOutputTranscription cur st, [OnTranscriptUpdate cur false false])
  | None =>
      match inputTranscription m with
      | Some text =>
          let cur := currentInputTranscription st +:+ text in
          (set_currentInputTranscription cur st, [OnTranscriptUpdate cur true false])
      | None => (st, [])
      end
  end.

(** onmessage, lines 131-134 and 135-138. *)
Definition finalizeInput : Block Action := λ st,
  if Js.truthy (Js.trim (currentInputTranscription st)) then
    (set_currentInputTranscription "" st,
     [OnTranscriptUpdate (currentInputTranscription st) true true])
  else (st, []).

Definition finalizeOutput : Block Action := λ st,
  if Js.truthy (Js.trim (currentOutputTranscription st)) then
    (set_currentOutputTranscription "" st,
     [OnTranscriptUpdate (currentOutputTranscription st) false true])
  else (st, []).

(** onmessage, lines 129-139. *)
Definition handleTurnComplete (m : LiveServerMessage) : Block Action :=
  if turnComplete m then finalizeInput ;;; finalizeOutput else skip.

(** onmessage, lines 141-147. *)
Definition handleInterruption (m : LiveServerMessage) (r : Readings) : Block Action := λ st,
  match audioContext st with
  | Some _ =>
      if interrupted m then
        (set_currentOutputTranscription ""
           (set_nextStartTime (currentTime_interrupt r) st), [])
      else (st, [])
  | None => (st, [])
  end.

(** onmessage, lines 94-148, in a run that gets through the decoding. The
    handler suspends only while the decoder works; a run is taken as a
    whole, and runs follow each other in arrival order. *)
Definition onmessage (m : LiveServerMessage) (r : Readings) : Block Action :=
  handleAudioOutput m r ;;; handleTranscriptions m ;;;
  handleTurnComplete m ;;; handleInterruption m r.

(** What the decoding of lines 104-109 ([base64ToUint8Array], then
    [decodeAudioData] under [await]) comes to in a run that reaches it. *)
Inductive Decoder :=
  | Resolves
  | Throws.

(** How the promise of the async handler settles. *)
Inductive Settlement :=
  | Returned
  | Thrown.

(** onmessage as the async function it is. Nothing catches a failure of the
    decoding: the run then ends after lines 100-102, with the amplitude
    reported and nextStartTime raised to the clock, and none of the lines
    111-147 is reached. [decoded r] is read only where the decoder
    resolves. *)
Definition onmessageAsync (m : LiveServerMessage) (r : Readings)
    (decoder : Decoder) : State → State * list Action * Settlement := λ st,
  match decoder, inlineData m, audioContext st with
  | Throws, Some base64Audio, Some _ =>
      if Js.truthy base64Audio then
        (set_nextStartTime (Qmax (nextStartTime st) (currentTime_chunk r)) st,
         [OnAudioData (1 # 2)], Thrown)
      else (onmessage m r st, Returned)
  | _, _, _ => (onmessage m r st, Returned)
  end.

(** *** stopLiveSession, lines 179-211 *)

(** Calls that give a resource back to the platform. *)
Inductive Release :=
  | ProcessorDisconnect (p : Handle)
  | SourceInputDisconnect (s : Handle)
  | TrackStop (t : Handle)
  | SessionClose
  | ContextClose (ctx : Handle).

Definition set_capture (p s : option Handle) (st : State) : State :=
  {| audioContext := audioContext st;
     inputAudioContext := inputAudioContext st;
     mediaStream := mediaStream st;
     processor := p;
     sourceInput := s;
     nextStartTime := nextStartTime st;
     session := session st;
     currentInputTranscription := currentInputTranscription st;
     currentOutputTranscription := currentOutputTranscription st |}.

Definition set_mediaStream (ms : option (list Handle)) (st : State) : State :=
  {| audioContext := audioContext st;
     inputAudioContext := inputAudioContext st;
     mediaStream := ms;
     processor := processor st;
     sourceInput := sourceInput st;
     nextStartTime := nextStartTime st;
     session := session st;
     currentInputTranscription := currentInputTranscription st;
     currentOutputTranscription := currentOutputTranscription st |}.

Definition set_session (s : option SessionObject) (st : State) : State :=
  {| audioContext := audioContext st;
     inputAudioContext := inputAudioContext st;
     mediaStream := mediaStream st;
     processor := processor st;
     sourceInput := sourceInput st;
     nextStartTime := nextStartTime st;
     session := s;
     currentInputTranscription := currentInputTranscription st;
     currentOutputTranscription := currentOutputTranscription st |}.

Definition set_audioContext (c : option Handle) (st : State) : State :=
  {| audioContext := c;
     inputAudioContext := inputAudioContext st;
     mediaStream := mediaStream st;
     processor := processor st;
     sourceInput := sourceInput st;
     nextStartTime := nextStartTime st;
     session := session st;
     currentInputTranscription := currentInputTranscription st;
     currentOutputTranscription := currentOutputTranscription st |}.

Definition set_inputAudioContext (c : option Handle) (st : State) : State :=
  {| audioContext := audioContext st;
     inputAudioContext := c;
     mediaStream := mediaStream st;
     processor := processor st;
     sourceInput := sourceInput st;
     nextStartTime := nextStartTime st;
     session := session st;
     currentInputTranscription := currentInputTranscription st;
     currentOutputTranscription := currentOutputTranscription st |}.

(** Lines 180-185. *)
Definition stopCapture : Block Release := λ st,
  match processor st, inputAudioContext st with
  | Some p, Some _ =>
      (set_capture None None st,
       ProcessorDisconnect p ::
       match sourceInput st with
       | Some s => [SourceInputDisconnect s]
       | None => []
       end)
  | _, _ => (st, [])
  end.

(** Lines 187-190. *)
Definition stopMediaStream : Block Release := λ st,
  match mediaStream st with
  | Some tracks => (set_mediaStream None st, TrackStop <$> tracks)
  | None => (st, [])
  end.

(** Lines 192-200. *)
Definition stopSession : Block Release := λ st,
  match session st with
  | Some s =>
      (set_session None st, if closeIsFunction s then [SessionClose] else [])
  | None => (st, [])
  end.

(** Lines 202-205. *)
Definition stopAudioContext : Block Release := λ st,
  match audioContext st with
  | Some c => (set_audioContext None st, [ContextClose c])
  | None => (st, [])
  end.

(** Lines 207-210. *)
Definition stopInputAudioContext : Block Release := λ st,
  match inputAudioContext st with
  | Some c => (set_inputAudioContext None st, [ContextClose c])
  | None => (st, [])
  end.

Definition stopLiveSession : Block Release :=
  stopCapture ;;; stopMediaStream ;;; stopSession ;;;
  stopAudioContext ;;; stopInputAudioContext.

(** *** The capture callback, lines 75-89 *)

(** The promise returned by [ai.live.connect]. While it is pending, the
    reactions registered with [then] wait in registration order; each
    reaction here sends one blob. *)
Inductive Promise :=
  | Pending (reactions : list string)
  | Fulfilled
  | Rejected.

(** The state of the connection as its callbacks tell it: before onopen,
    after onopen, after [session.close()] has been called, after onclose
    or onerror. *)
Inductive Transport :=
  | TransportOpening
  | TransportOpen
  | TransportClosing
  | TransportClosed.

Record Uplink := {
  sessionPromise : Promise;
  (* the blobs handed to sess.sendRealtimeInput, in order *)
  realtimeInput : list string;
  transport : Transport;
  (* whether a processor node carries the callback of line 75; nothing in
     the module ever takes it off again *)
  capturing : bool
}.

(** [sessionPromise.then(sess => sess.sendRealtimeInput({ media }))]. *)
Definition thenSend (media : string) (u : Uplink) : Uplink :=
  match sessionPromise u with
  | Pending reactions =>
      {| sessionPromise := Pending (reactions ++ [media]);
         realtimeInput := realtimeInput u;
         transport := transport u; capturing := capturing u |}
  | Fulfilled =>
      {| sessionPromise := Fulfilled;
         realtimeInput := realtimeInput u ++ [media];
         transport := transport u; capturing := capturing u |}
  | Rejected => u
  end.

(** The connection promise settles: on fulfilment the waiting reactions run
    in order, on rejection none of them runs. *)
Definition fulfil (u : Uplink) : Uplink :=
  match sessionPromise u with
  | Pending reactions =>
      {| sessionPromise := Fulfilled;
         realtimeInput := realtimeInput u ++ reactions;
         transport := transport u; capturing := capturing u |}
  | _ => u
  end.

Definition reject (u : Uplink) : Uplink :=
  match sessionPromise u with
  | Pending _ =>
      {| sessionPromise := Rejected; realtimeInput := realtimeInput u;
         transport := transport u; capturing := capturing u |}
  | _ => u
  end.

(** The connection promise has been fulfilled: the reactions of the
    capture callback have the session object. *)
Definition sessionAvailable (u : Uplink) : bool :=
  match sessionPromise u with
  | Fulfilled => true
  | _ => false
  end.


Definition set_transport (t : Transport) (u : Uplink) : Uplink :=
  {| sessionPromise := sessionPromise u; realtimeInput := realtimeInput u;
     transport := t; capturing := capturing u |}.

Definition set_capturing (b : bool) (u : Uplink) : Uplink :=
  {| sessionPromise := sessionPromise u; realtimeInput := realtimeInput u;
     transport := transport u; capturing := b |}.

(** The guard of line 70. *)
Definition canCapture (st : State) : bool :=
  match inputAudioContext st, mediaStream st with
  | Some _, Some _ => true
  | _, _ => false
  end.

(** onopen, lines 67-93: with an input context and a microphone stream at
    hand, a source node and a processor node are created and the capture
    callback is attached to the processor. *)
Definition onopen (source proc : Handle) (st : State) : State :=
  match inputAudioContext st, mediaStream st with
  | Some _, Some _ => set_capture (Some proc) (Some source) st
  | _, _ => st
  end.

Section Capture.
(** [Math.sqrt], and [createPcmBlob] of utils/audio, which is not part of
    the sources at hand. *)
Variable Math_sqrt : Q → Q.
Variable createPcmBlob : list Q → string.

Definition sumOfSquares (inputData : list Q) : Q :=
  foldl (λ sum x, sum + x * x)%Q 0%Q inputData.

(** Returns the uplink and the amplitude reported to [onAudioData]; the
    callback has no other exit, and it reads neither the module variables
    nor the state of the connection. *)
Definition onaudioprocess (inputData : list Q) (u : Uplink) : Uplink * list Action :=
  let rms := Math_sqrt (sumOfSquares inputData / inject_Z (Z.of_nat (length inputData)))%Q in
  (thenSend (createPcmBlob inputData) u, [OnAudioData (rms * 5)%Q]).

(** What can happen to a session on its capture side. *)
Inductive CaptureEvent :=
  (* the connection calls onopen *)
  | Open (source proc : Handle)
  (* a processor node delivers a block of samples to its callback *)
  | Frame (inputData : list Q)
  (* the connection promise is fulfilled with the session object *)
  | Resolve (sess : SessionObject)
  (* the connection promise is rejected *)
  | Refuse
  (* the connection calls onclose (lines 149-152) *)
  | Close
  (* the connection calls onerror (lines 153-156) *)
  | Fault
  (* the application calls stopLiveSession *)
  | Stop.

(** The transport after [stopLiveSession]: closing if [session.close()] was
    called on a connection that had not closed yet. *)
Definition transportAfterStop (st : State) (t : Transport) : Transport :=
  match t, session st with
  | TransportClosed, _ => TransportClosed
  | _, Some sess => if closeIsFunction sess then TransportClosing else t
  | _, None => t
  end.

(** A frame event runs the callback whenever a node carries it, whatever
    the module variables and the transport are by then; a settled promise
    does not settle again; line 169 stores the session object when the
    promise is fulfilled; onclose and onerror only notify the application
    and leave the module and the promise alone. *)
Definition captureStep (s : State * Uplink) (e : CaptureEvent) : State * Uplink :=
  match e with
  | Open source proc =>
      (onopen source proc s.1,
       set_capturing (capturing s.2 || canCapture s.1)
         (match transport s.2 with
          | TransportOpening => set_transport TransportOpen s.2
          | _ => s.2
          end))
  | Frame inputData =>
      if capturing s.2 then (s.1, (onaudioprocess inputData s.2).1) else s
  | Resolve sess =>
      match sessionPromise s.2 with
      | Pending _ => (set_session (Some sess) s.1, fulfil s.2)
      | _ => s
      end
  | Refuse => (s.1, reject s.2)
  | Close | Fault => (s.1, set_transport TransportClosed s.2)
  | Stop =>
      ((stopLiveSession s.1).1,
       set_transport (transportAfterStop s.1 (transport s.2)) s.2)
  end.

Definition captureRun (es : list CaptureEvent) (s : State * Uplink) : State * Uplink :=
  foldl captureStep s es.
End Capture.

End Gemini.

(** ** App.tsx: the transcript callback handed to startLiveSession *)

Module App.

Definition roleOf (isUser : bool) : Role := if isUser then user else assistant.

(** The updater passed to [setTranscripts] (lines 190-209); [now] is the
    value of [new Date()]. *)
Definition onTranscriptUpdate (text : string) (isUser isFinal : bool) (now : N)
    (prev : list TranscriptItem) : list TranscriptItem :=
  if isFinal then
    match last prev with
    | Some l =>
        if isPartial l && bool_decide (role l = roleOf isUser) then
          <[length prev - 1 :=
              {| role := roleOf isUser; text := text; timestamp := now;
                 isPartial := false |}]> prev
        else
          prev ++ [{| role := roleOf isUser; text := text; timestamp := now;
                      isPartial := false |}]
    | None =>
        prev ++ [{| role := roleOf isUser; text := text; timestamp := now;
                    isPartial := false |}]
    end
  else
    match last prev with
    | Some l =>
        if isPartial l && bool_decide (role l = roleOf isUser) then
          <[length prev - 1 :=
              {| role := role l; text := text; timestamp := now;
                 isPartial := isPartial l |}]> prev
        else
          prev ++ [{| role := roleOf isUser; text := text; timestamp := now;
                      isPartial := true |}]
    | None =>
        prev ++ [{| role := roleOf isUser; text := text; timestamp := now;
                    isPartial := true |}]
    end.

(** The calls of a handler run reach the application in order; the k-th
    transcript callback reads [date k]. The amplitude callback and the
    playback calls do not touch the transcript. *)
Fixpoint deliver (date : nat → N) (k : nat) (acts : list Gemini.Action)
    (prev : list TranscriptItem) : list TranscriptItem :=
  match acts with
  | [] => prev
  | Gemini.OnTranscriptUpdate text isUser isFinal :: acts' =>
      deliver date (S k) acts' (onTranscriptUpdate text isUser isFinal (date k) prev)
  | _ :: acts' => deliver date k acts' prev
  end.

(** A call in progress: the service state and the transcript sequence. *)
Record Call := {
  live : Gemini.State;
  transcripts : list TranscriptItem
}.

(** One inbound message whose run gets through the decoding: the handler
    runs, then its callbacks are applied. *)
Definition receive (m : Gemini.LiveServerMessage) (r : Gemini.Readings)
    (c : Call) : Call :=
  let '(st, acts) := Gemini.onmessage m r (live c) in
  {| live := st; transcripts := deliver (Gemini.date r) 0 acts (transcripts c) |}.

Fixpoint receiveAll (ms : list (Gemini.LiveServerMessage * Gemini.Readings))
    (c : Call) : Call :=
  match ms with
  | [] => c
  | (m, r) :: ms' => receiveAll ms' (receive m r c)
  end.

(** handleStartCall, line 183 ([setTranscripts([])]) and the state that
    startLiveSession sets up. *)
Definition startCall (inCtx outCtx : Gemini.Handle) (currentTime : Q)
    (stream : list Gemini.Handle) (st : Gemini.State) : Call :=
  {| live := Gemini.startLiveSession inCtx outCtx currentTime stream st;
     transcripts := [] |}.

End App.

(** ** Messages carrying a single field *)

Module Msg.
Import Gemini.

Definition empty : LiveServerMessage :=
  {| inlineData := None; outputTranscription := None;
     inputTranscription := None; turnComplete := false; interrupted := false |}.

Definition audioChunk (payload : string) : LiveServerMessage :=
  {| inlineData := Some payload; outputTranscription := None;
     inputTranscription := None; turnComplete := false; interrupted := false |}.

Definition transcriptDelta (r : Role) (text : string) : LiveServerMessage :=
  match r with
  | assistant =>
      {| inlineData := None; outputTranscription := Some text;
         inputTranscription := None; turnComplete := false; interrupted := false |}
  | user =>
      {| inlineData := None; outputTranscription := None;
         inputTranscription := Some text; turnComplete := false; interrupted := false |}
  end.

Definition turnCompleteMarker : LiveServerMessage :=
  {| inlineData := None; outputTranscription := None;
     inputTranscription := None; turnComplete := true; interrupted := false |}.

Definition interruptedMarker : LiveServerMessage :=
  {| inlineData := None; outputTranscription := None;
     inputTranscription := None; turnComplete := false; interrupted := true |}.

End Msg.

(** ** The events of one message *)

Module Dispatch.
Import Gemini.

Inductive ServerEvent :=
  | AudioChunk (payload : string)
  | TranscriptDelta (r : Role) (text : string)
  | TurnComplete
  | Interrupted.

#[global] Instance ServerEvent_eq_dec : EqDecision ServerEvent.
Proof. solve_decision. Defined.

(** The blocks after the audio block that run for [m], named by the event
    each one serves, in the order they run; the guards are those of lines
    119, 123, 129 and 142. *)
Definition afterAudio (st : State) (m : LiveServerMessage) : list ServerEvent :=
  match outputTranscription m with
  | Some text => [TranscriptDelta assistant text]
  | None =>
      match inputTranscription m with
      | Some text => [TranscriptDelta user text]
      | None => []
      end
  end ++
  (if turnComplete m then [TurnComplete] else []) ++
  match audioContext st with
  | Some _ => if interrupted m then [Interrupted] else []
  | None => []
  end.

(** The blocks of [onmessage] that a run enters for [m]: the audio block
    under the guard of line 98 and, unless the decoding fails in it, the
    blocks after it. *)
Definition dispatch (decoder : Decoder) (st : State) (m : LiveServerMessage)
    : list ServerEvent :=
  match inlineData m, audioContext st with
  | Some base64Audio, Some _ =>
      if Js.truthy base64Audio then
        AudioChunk base64Audio ::
        match decoder with
        | Resolves => afterAudio st m
        | Throws => []
        end
      else afterAudio st m
  | _, _ => afterAudio st m
  end.





End Dispatch.

(** ** services/twilio.ts *)

Module Twilio.

Record JsError := { name : string; message : string }.

Definition Error (msg : string) : JsError := {| name := "Error"; message := msg |}.

Record Request := {
  url : string;
  method : string;
  headers : list (string * string);
  body : list (string * string)
}.

Record Response := {
  ok : bool;
  status : N;
  statusText : string;
  (* what response.text() settles to *)
  responseText : JsError + string;
  (* what response.json() settles to *)
  responseJson : JsError + string
}.

Section MakeCall.
(** The platform: [btoa], and [fetch], which rejects or resolves to a
    response. *)
Variable btoa : string → string.
Variable fetch : Request → JsError + Response.

(** Lines 41-46. *)
Definition twiml (userRealPhoneNumber : string) : string :=
  "
    <Response>
      <Say>Please wait while we connect you to the assistant.</Say>
      <Dial>" +:+ userRealPhoneNumber +:+ "</Dial>
    </Response>
  ".

(** Lines 68-74. *)
Definition rethrow (error : JsError) : JsError :=
  if bool_decide (name error = "TypeError") &&
     bool_decide (message error = "Failed to fetch")
  then Error "CORS Error: Browser blocked the Twilio API request. Please use a CORS proxy or run this via a backend."
  else error.

(** The promise's outcome (rejection on the left) and the requests handed
    to [fetch]. *)
Definition makeTwilioCall (config : TwilioConfig)
    (customerNumber userRealPhoneNumber : string)
    : (JsError + string) * list Request :=
  if negb (Js.truthy (accountSid config))
     || negb (Js.truthy (authToken config))
     || negb (Js.truthy (myPhoneNumber config))
  then (inl (Error "Missing Twilio credentials"), [])
  else
    let endpoint :=
      "https://api.twilio.com/2010-04-01/Accounts/" +:+ accountSid config
        +:+ "/Calls.json" in
    let formData :=
      [("To", customerNumber); ("From", myPhoneNumber config);
       ("Twiml", twiml userRealPhoneNumber)] in
    let auth := btoa (accountSid config +:+ ":" +:+ authToken config) in
    let request :=
      {| url := endpoint; method := "POST";
         headers := [("Authorization", "Basic " +:+ auth);
                     ("Content-Type", "application/x-www-form-urlencoded")];
         body := formData |} in
    (match fetch request with
     | inl error => inl (rethrow error)
     | inr response =>
         if negb (ok response) then
           match responseText response with
           | inl error => inl (rethrow error)
           | inr errorText =>
               inl (rethrow (Error ("Twilio Error: " +:+ pretty (status response)
                                      +:+ " " +:+ statusText response
                                      +:+ " - " +:+ errorText)))
           end
         else
           match responseJson response with
           | inl error => inl (rethrow error)
           | inr json => inr json
           end
     end, [request]).
End MakeCall.

End Twilio.

(** ** Playback schedule of a run of messages *)

Module Playback.
Import Gemini.

(** Messages handled one after the other, in arrival order. *)
Fixpoint onmessages (ms : list (LiveServerMessage * Readings)) : Block Action :=
  match ms with
  | [] => skip
  | (m, r) :: ms' => onmessage m r ;;; onmessages ms'
  end.

(** Start time and duration of every buffer handed to [source.start]. *)
Definition scheduled (acts : list Action) : list (Q * Q) :=
  omap (λ a, match a with
             | SourceStart buffer when => Some (when, duration buffer)
             | _ => None
             end) acts.

(** Each start is no earlier than [lo], the end of the buffer before it. *)
Fixpoint chained (lo : Q) (sched : list (Q * Q)) : Prop :=
  match sched with
  | [] => True
  | (s, d) :: rest => (lo <= s)%Q ∧ chained (s + d)%Q rest
  end.

Definition hasAudio (m : LiveServerMessage) : Prop :=
  ∃ payload, inlineData m = Some payload ∧ payload ≠ "".

(** Blocks that start no buffer and leave the clock variable alone. *)
Definition quiet (b : Block Action) : Prop :=
  ∀ st, scheduled (b st).2 = [] ∧ nextStartTime (b st).1 = nextStartTime st.

End Playback.

(** ** Shapes of the transcript sequence *)

Module Transcript.

(** The invariant of the data model as the specification words it: every
    non-final entry is the last entry, hence there is at most one. *)
Definition singleTrailingPartial (ts : list TranscriptItem) : Prop :=
  ∀ i e, ts !! i = Some e → isPartial e = true → S i = length ts.

(** Two neighbouring non-final entries never have the same role. *)
Definition alternating (ts : list TranscriptItem) : Prop :=
  ∀ i e1 e2, ts !! i = Some e1 → ts !! S i = Some e2 →
             isPartial e1 = true → isPartial e2 = true → role e1 ≠ role e2.

(** Entry [e] sits at index [i] and is either followed by another entry or
    final. *)
Definition settled (ts : list TranscriptItem) (i : nat) (e : TranscriptItem) : Prop :=
  ts !! i = Some e ∧ (S i < length ts ∨ isPartial e = false).

(** Role, text and partial flag of every entry. *)
Definition view (ts : list TranscriptItem) : list (Role * string * bool) :=
  (λ e, (role e, text e, isPartial e)) <$> ts.

(** No call finalizes an assistant entry. *)
Definition noAssistantFinal (acts : list Gemini.Action) : Prop :=
  ∀ text, Gemini.OnTranscriptUpdate text false true ∉ acts.

End Transcript.

(** ** Sample data *)

Module Examples.
Import Gemini.

(** The module before any session has been started. *)
Definition idle : State :=
  {| audioContext := None; inputAudioContext := None; mediaStream := None;
     processor := None; sourceInput := None; nextStartTime := 0;
     session := None;
     currentInputTranscription := ""; currentOutputTranscription := "" |}.

(** A call opened at clock time 10. *)
Definition opened : App.Call := App.startCall 1%N 2%N 10%Q [3%N] idle.

Definition at_ (clock : Q) (d : Q) : Readings :=
  {| currentTime_chunk := clock; decoded := {| duration := d |};
     currentTime_interrupt := clock; date := λ _, 0%N |}.

(** A chunk of half a second handled at clock time 10, then a chunk of 0.3
    seconds handled late, at 10.6. *)
Definition twoChunks : list (LiveServerMessage * Readings) :=
  [(Msg.audioChunk "AAAA", at_ 10 (1 # 2));
   (Msg.audioChunk "BBBB", at_ (53 # 5) (3 # 10))].

(** A message with every field present. *)
Definition everything : LiveServerMessage :=
  {| inlineData := Some "AAAA"; outputTranscription := Some "Hello";
     inputTranscription := Some "Hi"; turnComplete := true;
     interrupted := true |}.


(** The assistant has begun a sentence. *)
Definition midSentence : App.Call :=
  App.receive (Msg.transcriptDelta assistant "I think we should") (at_ 11 0) opened.

(** A complete Twilio configuration. *)
Definition twilioConfig : TwilioConfig :=
  {| accountSid := "AC123"; authToken := "secret";
     myPhoneNumber := "+12054420312"; verifiedCallerId := Some "+15550101" |}.

(** A network that answers every request with 401. *)
Definition unauthorized (_ : Twilio.Request) : Twilio.JsError + Twilio.Response :=
  inr {| Twilio.ok := false; Twilio.status := 401; Twilio.statusText := "Unauthorized";
         Twilio.responseText := inr "Authenticate";
         Twilio.responseJson := inr "{}" |}.

(** A network that accepts every call. *)
Definition accepted (_ : Twilio.Request) : Twilio.JsError + Twilio.Response :=
  inr {| Twilio.ok := true; Twilio.status := 201; Twilio.statusText := "Created";
         Twilio.responseText := inr "{}"; Twilio.responseJson := inr "{}" |}.

End Examples.

(** ** Further parts of the source *)

(** More of [String.prototype]. *)
Module JsString.

(** Only white space, or nothing at all. *)
Fixpoint blank (s : string) : bool :=
  match s with
  | EmptyString => true
  | String c s' => Js.isWhiteSpace c && blank s'
  end.

(** [s.includes(needle)]. *)
Fixpoint includes (s needle : string) : bool :=
  String.prefix needle s ||
  match s with
  | EmptyString => false
  | String _ s' => includes s' needle
  end.

End JsString.

Module Calls.

(** The transcript callbacks among the calls of a handler run: text,
    [isUser], [isFinal]. *)
Definition transcriptUpdates (acts : list Gemini.Action) : list (string * bool * bool) :=
  omap (λ a, match a with
             | Gemini.OnTranscriptUpdate text isUser isFinal =>
                 Some (text, isUser, isFinal)
             | _ => None
             end) acts.

End Calls.

Module Schedule.




End Schedule.

Module Lifecycle.
Import Gemini.

(** A processor node is attached only while the input context exists, and
    a source node only together with a processor. *)
Definition tidy (st : State) : Prop :=
  (is_Some (processor st) → is_Some (inputAudioContext st)) ∧
  (processor st = None → sourceInput st = None).

(** The module holds no resource. *)
Definition released (st : State) : Prop :=
  audioContext st = None ∧ inputAudioContext st = None ∧
  mediaStream st = None ∧ processor st = None ∧ sourceInput st = None ∧
  session st = None.

Section Captured.
Variable Math_sqrt : Q → Q.
Variable createPcmBlob : list Q → string.

(** The blobs of the frames that reach the capture callback during a run,
    in capture order. *)
Fixpoint captured (es : list CaptureEvent) (s : State * Uplink) : list string :=
  match es with
  | [] => []
  | e :: es' =>
      match e, capturing s.2 with
      | Frame inputData, true => [createPcmBlob inputData]
      | _, _ => []
      end ++ captured es' (captureStep Math_sqrt createPcmBlob s e)
  end.
End Captured.

(** The connection calling onopen. *)
Definition isOpen (e : CaptureEvent) : Prop :=
  match e with
  | Open _ _ => True
  | _ => False
  end.

(** A connection that has not opened yet. *)
Definition connecting : Uplink :=
  {| sessionPromise := Pending []; realtimeInput := [];
     transport := TransportOpening; capturing := false |}.

End Lifecycle.

(** gemini.ts, lines 216-219: the transcript as it is put into the prompt
    of generateMeetingSummary. *)
Module Summary.

(** [t.role.toUpperCase()]. *)
Definition upperRole (r : Role) : string :=
  match r with
  | user => "USER"
  | assistant => "ASSISTANT"
  end.

Definition line (t : TranscriptItem) : string :=
  upperRole (role t) +:+ ": " +:+ text t.

Definition conversationText (transcripts : list TranscriptItem) : string :=
  String.concat "
" (line <$> transcripts).

End Summary.

Module Deltas.
Import Gemini.

(** The transcription buffer of a role. *)
Definition bufferOf (ro : Role) (st : State) : string :=
  match ro with
  | user => currentInputTranscription st
  | assistant => currentOutputTranscription st
  end.

(** Messages that each carry one delta of the same role. *)
Definition deltas (ro : Role) (trs : list (string * Readings))
    : list (LiveServerMessage * Readings) :=
  (λ tr, (Msg.transcriptDelta ro tr.1, tr.2)) <$> trs.

(** The texts joined without separator. *)
Definition merged (texts : list string) : string :=
  foldr String.app "" texts.

End Deltas.

(** App.tsx: the checks and the error report of handleStartCall. *)
Module StartCall.

Inductive Tab := assistantTab | phoneTab.

#[global] Instance Tab_eq_dec : EqDecision Tab.
Proof. solve_decision. Defined.




(** The error that [makeTwilioCall] throws for a blocked request (twilio.ts,
    line 71). *)
Definition corsError : Twilio.JsError :=
  Twilio.Error "CORS Error: Browser blocked the Twilio API request. Please use a CORS proxy or run this via a backend.".

Definition authenticationFailed : string :=
  "Twilio Authentication Failed: Please check your Account SID and Auth Token in Settings.".

Definition networkError : string :=
  "Network Error: Browser blocked the request to Twilio. Please check your network or CORS settings.".

(** Lines 236-246: the message shown for a caught error. *)
Definition errorMessage (e : Twilio.JsError) : string :=
  let message :=
    if Js.truthy (Twilio.message e) then Twilio.message e
    else "Failed to start services." in
  if JsString.includes message "401" || JsString.includes message "Unauthorized"
     || JsString.includes message "Authenticate"
  then authenticationFailed
  else if JsString.includes message "CORS" || JsString.includes message "Failed to fetch"
  then networkError
  else message.

End StartCall.

(** * Properties *)

Section Scheduling.
Import Gemini Playback.

Lemma scheduled_app a1 a2 : scheduled (a1 ++ a2) = scheduled a1 ++ scheduled a2.
Proof. apply omap_app. Qed.

Lemma chained_lookup lo sched :
  chained lo sched →
  (∀ s d, sched !! 0 = Some (s, d) → (lo <= s)%Q) ∧
  (∀ i s d s' d', sched !! i = Some (s, d) → sched !! S i = Some (s', d') →
                  (s + d <= s')%Q).
Proof.
  revert lo. induction sched as [|[s0 d0] rest IH]; intros lo H.
  - split; intros; discriminate.
  - destruct H as [Hlo Hrest]. destruct (IH _ Hrest) as [Hhd Htl]. split.
    + intros s d [= <- <-]. exact Hlo.
    + intros [|i] s d s' d' H1 H2; simpl in *.
      * injection H1 as <- <-. eauto.
      * eauto.
Qed.

Lemma seq_quiet b1 b2 st :
  quiet b2 →
  scheduled ((b1 ;;; b2) st).2 = scheduled (b1 st).2 ∧
  nextStartTime ((b1 ;;; b2) st).1 = nextStartTime (b1 st).1.
Proof.
  intros Hq. unfold seq. destruct (b1 st) as [st1 a1].
  destruct (Hq st1) as [Hs Hn]. destruct (b2 st1) as [st2 a2]. simpl in *.
  by rewrite scheduled_app, Hs, app_nil_r.
Qed.

Lemma handleTranscriptions_quiet m : quiet (handleTranscriptions m).
Proof.
  intros st. unfold handleTranscriptions.
  by destruct (outputTranscription m), (inputTranscription m).
Qed.

Lemma finalizeInput_quiet : quiet finalizeInput.
Proof. intros st. unfold finalizeInput. by case_match. Qed.

Lemma finalizeOutput_quiet : quiet finalizeOutput.
Proof. intros st. unfold finalizeOutput. by case_match. Qed.

Lemma handleTurnComplete_quiet m : quiet (handleTurnComplete m).
Proof.
  intros st. unfold handleTurnComplete. destruct (turnComplete m); [|done].
  destruct (seq_quiet finalizeInput finalizeOutput st finalizeOutput_quiet)
    as [-> ->].
  apply finalizeInput_quiet.
Qed.

Lemma handleInterruption_quiet m r :
  interrupted m = false → quiet (handleInterruption m r).
Proof.
  intros Hi st. unfold handleInterruption. rewrite Hi.
  by destruct (audioContext st).
Qed.

(** A message that is not an interruption schedules what its audio block
    schedules. *)
Lemma onmessage_schedule m r st :
  interrupted m = false →
  scheduled (onmessage m r st).2 = scheduled (handleAudioOutput m r st).2 ∧
  nextStartTime (onmessage m r st).1 = nextStartTime (handleAudioOutput m r st).1.
Proof.
  intros Hi. unfold onmessage.
  destruct (seq_quiet (handleAudioOutput m r ;;; handleTranscriptions m ;;;
                       handleTurnComplete m) (handleInterruption m r) st
              (handleInterruption_quiet m r Hi)) as [-> ->].
  destruct (seq_quiet (handleAudioOutput m r ;;; handleTranscriptions m)
              (handleTurnComplete m) st (handleTurnComplete_quiet m)) as [-> ->].
  apply seq_quiet, handleTranscriptions_quiet.
Qed.

Lemma handleAudioOutput_chained m r st :
  let '(st', acts) := handleAudioOutput m r st in
  ∀ rest, chained (nextStartTime st') rest →
          chained (nextStartTime st) (scheduled acts ++ rest).
Proof.
  unfold handleAudioOutput.
  destruct (inlineData m) as [b|], (audioContext st); try done.
  destruct (Js.truthy b); [|done].
  intros rest Hrest. split; [apply Q.le_max_l | exact Hrest].
Qed.

Lemma handleAudioOutput_start m r st :
  hasAudio m → is_Some (audioContext st) →
  let start := Qmax (nextStartTime st) (currentTime_chunk r) in
  scheduled (handleAudioOutput m r st).2 = [(start, duration (decoded r))] ∧
  nextStartTime (handleAudioOutput m r st).1 = (start + duration (decoded r))%Q.
Proof.
  intros (b & Hb & Hne) [c Hc]. unfold handleAudioOutput, Js.truthy.
  rewrite Hb, Hc, bool_decide_eq_true_2; done.
Qed.

Lemma onmessages_chained ms st :
  Forall (λ mr, interrupted mr.1 = false) ms →
  chained (nextStartTime st) (scheduled (onmessages ms st).2).
Proof.
  revert st. induction ms as [|[m r] ms IH]; intros st Hms; [exact I|].
  apply Forall_cons in Hms as [Hm Hms]. simpl in Hm.
  destruct (onmessage_schedule m r st Hm) as [Hs Hn].
  pose proof (handleAudioOutput_chained m r st) as Ha.
  simpl. unfold seq at 1.
  destruct (onmessage m r st) as [st1 a1].
  specialize (IH st1 Hms).
  destruct (onmessages ms st1) as [st2 a2].
  destruct (handleAudioOutput m r st) as [st' acts]. simpl in *.
  rewrite scheduled_app, Hs. apply Ha. by rewrite <- Hn.
Qed.

(** C1. After session open at clock time [t0], for every sequence of
    messages handled in arrival order, none of them an interruption, the
    scheduled start times satisfy s1 >= t0 and s(i+1) >= s(i) + d(i); and
    every message that carries audio is scheduled at
    max(nextStartTime, currentTime), after which nextStartTime is that start
    plus the duration of the decoded buffer. *)
Theorem C1_monotonic_scheduling inCtx outCtx (t0 : Q) stream st0
    (ms : list (LiveServerMessage * Readings)) :
  Forall (λ mr, interrupted mr.1 = false) ms →
  let st := startLiveSession inCtx outCtx t0 stream st0 in
  let sched := scheduled (onmessages ms st).2 in
  (∀ s d, sched !! 0 = Some (s, d) → (t0 <= s)%Q) ∧
  (∀ i s d s' d', sched !! i = Some (s, d) → sched !! S i = Some (s', d') →
                  (s + d <= s')%Q) ∧
  (∀ m r st1, hasAudio m → is_Some (audioContext st1) → interrupted m = false →
     let start := Qmax (nextStartTime st1) (currentTime_chunk r) in
     scheduled (onmessage m r st1).2 = [(start, duration (decoded r))] ∧
     nextStartTime (onmessage m r st1).1 = (start + duration (decoded r))%Q).
Proof.
  intros Hms st sched.
  pose proof (onmessages_chained ms st Hms) as Hc.
  apply chained_lookup in Hc as [Hhd Htl].
  split; [exact Hhd|]. split; [exact Htl|].
  intros m r st1 Ha Hctx Hi.
  destruct (onmessage_schedule m r st1 Hi) as [-> ->].
  by apply handleAudioOutput_start.
Qed.

(** The two chunks of the end-to-end scenario satisfy the premise of C1,
    and the first of them starts no earlier than the session opened. *)
Lemma C1_witness :
  Forall (λ mr, interrupted mr.1 = false) Examples.twoChunks ∧
  ∀ s d, Playback.scheduled
           (Playback.onmessages Examples.twoChunks
              (startLiveSession 1%N 2%N 10 [3%N] Examples.idle)).2 !! 0
         = Some (s, d) → (10 <= s)%Q.
Proof.
  assert (H : Forall (λ mr, interrupted mr.1 = false) Examples.twoChunks)
    by (repeat constructor).
  split; [exact H|].
  exact (proj1 (C1_monotonic_scheduling 1%N 2%N 10 [3%N] Examples.idle
                  Examples.twoChunks H)).
Defined.

(** The end-to-end scenario: a chunk of 0.5 s handled at clock time 10 is
    scheduled at 10 and moves nextStartTime to 10.5; a chunk of 0.3 s
    handled late, at 10.6, is scheduled at 10.6 and moves it to 10.9. *)
Example end_to_end_scenario :
  let out := onmessages Examples.twoChunks
               (startLiveSession 1%N 2%N 10 [3%N] Examples.idle) in
  scheduled out.2 = [(10%Q, 1 # 2); (53 # 5, 3 # 10)] ∧
  (nextStartTime out.1 == 109 # 10)%Q.
Proof. by split. Qed.

End Scheduling.

Section DispatchFacts.
Import Gemini Dispatch.



End DispatchFacts.

Section DispatchClaims.
Import Gemini Dispatch.




End DispatchClaims.

Section SingleField.
Import Gemini.

Ltac run_handler :=
  unfold onmessage, handleAudioOutput, handleTranscriptions,
    handleTurnComplete, handleInterruption, skip, seq; simpl.

Lemma onmessage_interrupted r st :
  is_Some (audioContext st) →
  onmessage Msg.interruptedMarker r st =
    (set_currentOutputTranscription ""
       (set_nextStartTime (currentTime_interrupt r) st), []).
Proof. intros [c Hc]. run_handler. by rewrite Hc. Qed.

Lemma onmessage_turnComplete r st :
  onmessage Msg.turnCompleteMarker r st = (finalizeInput ;;; finalizeOutput) st.
Proof.
  run_handler. unfold seq.
  destruct (finalizeInput st) as [st1 a1], (finalizeOutput st1) as [st2 a2] eqn:E.
  destruct (audioContext st2); by rewrite app_nil_r.
Qed.

Lemma onmessage_delta_assistant text r st :
  onmessage (Msg.transcriptDelta assistant text) r st =
    (set_currentOutputTranscription (currentOutputTranscription st +:+ text) st,
     [OnTranscriptUpdate (currentOutputTranscription st +:+ text) false false]).
Proof. run_handler. by destruct (audioContext st). Qed.

Lemma onmessage_delta_user text r st :
  onmessage (Msg.transcriptDelta user text) r st =
    (set_currentInputTranscription (currentInputTranscription st +:+ text) st,
     [OnTranscriptUpdate (currentInputTranscription st +:+ text) true false]).
Proof. run_handler. by destruct (audioContext st). Qed.

End SingleField.

Section Interruption.
Import Gemini App Transcript.

(** C3, counterexample. The assistant has said "I think we should": the
    transcript ends with that non-final assistant entry and the buffer holds
    the text. After an interruption the entry is still the last one of the
    transcript, which has not changed at all. *)
Lemma C3_counterexample :
  let c := Examples.midSentence in
  let e := {| role := assistant; text := "I think we should";
              timestamp := 0; isPartial := true |} in
  let c' := receive Msg.interruptedMarker (Examples.at_ 12 0) c in
  last (transcripts c) = Some e ∧
  currentOutputTranscription (live c) = "I think we should" ∧
  transcripts c' = [e] ∧
  transcripts c' ≠ take (length (transcripts c) - 1) (transcripts c).
Proof. by repeat split. Qed.

(** C3, amended. Where the transcript ends with a non-final assistant entry
    and the assistant's buffer is non-empty, an interruption leaves the
    transcript as it is (the entry stays, still non-final), makes no
    transcript callback, and empties the buffer, so that the turn complete
    that follows finalizes nothing for the assistant. *)
Theorem C3_interrupted_keeps_entry c e r r' :
  is_Some (audioContext (live c)) →
  last (transcripts c) = Some e → role e = assistant → isPartial e = true →
  currentOutputTranscription (live c) ≠ "" →
  let c' := receive Msg.interruptedMarker r c in
  transcripts c' = transcripts c ∧
  (onmessage Msg.interruptedMarker r (live c)).2 = [] ∧
  currentOutputTranscription (live c') = "" ∧
  noAssistantFinal (onmessage Msg.turnCompleteMarker r' (live c')).2.
Proof.
  intros Hctx _ _ _ _. unfold receive.
  rewrite onmessage_interrupted by done. simpl.
  repeat split. intros text H. rewrite onmessage_turnComplete in H.
  unfold seq, finalizeInput, finalizeOutput in H. simpl in H.
  destruct (Js.truthy _); simpl in H;
    repeat (apply elem_of_cons in H as [?|H]; [done|]);
    by apply elem_of_nil in H.
Qed.

(** The interruption of the sentence "I think we should". *)
Lemma C3_witness :
  let c := Examples.midSentence in
  transcripts (receive Msg.interruptedMarker (Examples.at_ 12 0) c) = transcripts c.
Proof.
  refine (proj1 (C3_interrupted_keeps_entry Examples.midSentence
                   {| role := assistant; text := "I think we should";
                      timestamp := 0; isPartial := true |}
                   (Examples.at_ 12 0) (Examples.at_ 13 0) _ _ _ _ _));
    [by eexists|reflexivity|reflexivity|reflexivity|done].
Defined.

(** C4. While the audio context exists, an interruption empties the
    assistant's buffer and sets nextStartTime to the current clock time; the
    user's buffer, every other variable of the module and the transcript
    stay as they were, and no callback is made. The interruption block does
    the same in every message that carries the marker. *)
Theorem C4_interrupted_frame c r :
  is_Some (audioContext (live c)) →
  let out := onmessage Msg.interruptedMarker r (live c) in
  let c' := receive Msg.interruptedMarker r c in
  out.2 = [] ∧
  live c' = out.1 ∧
  currentOutputTranscription (live c') = "" ∧
  nextStartTime (live c') = currentTime_interrupt r ∧
  currentInputTranscription (live c') = currentInputTranscription (live c) ∧
  audioContext (live c') = audioContext (live c) ∧
  inputAudioContext (live c') = inputAudioContext (live c) ∧
  mediaStream (live c') = mediaStream (live c) ∧
  processor (live c') = processor (live c) ∧
  sourceInput (live c') = sourceInput (live c) ∧
  session (live c') = session (live c) ∧
  transcripts c' = transcripts c ∧
  (∀ m, interrupted m = true →
        handleInterruption m r (live c) =
          (set_currentOutputTranscription ""
             (set_nextStartTime (currentTime_interrupt r) (live c)), [])).
Proof.
  intros Hctx. unfold receive.
  rewrite onmessage_interrupted by done. repeat split.
  intros m Hm. unfold handleInterruption. rewrite Hm.
  by destruct Hctx as [ctx ->].
Qed.

(** The same interruption, at clock time 12. *)
Lemma C4_witness :
  is_Some (audioContext (live Examples.midSentence)) ∧
  nextStartTime (live (receive Msg.interruptedMarker (Examples.at_ 12 0)
                         Examples.midSentence)) = 12%Q.
Proof.
  assert (H : is_Some (audioContext (live Examples.midSentence))) by (by eexists).
  split; [exact H|].
  exact (proj1 (proj2 (proj2 (proj2
    (C4_interrupted_frame Examples.midSentence (Examples.at_ 12 0) H))))).
Defined.

End Interruption.

Section Reconciliation.
Import Gemini App Transcript.

Lemma finalizeInput_empty st :
  currentInputTranscription st = "" → finalizeInput st = (st, []).
Proof. intros H. unfold finalizeInput. by rewrite H. Qed.

Lemma finalizeOutput_empty st :
  currentOutputTranscription st = "" → finalizeOutput st = (st, []).
Proof. intros H. unfold finalizeOutput. by rewrite H. Qed.

Lemma receive_delta_assistant t r c :
  receive (Msg.transcriptDelta assistant t) r c =
    {| live := set_currentOutputTranscription
                 (currentOutputTranscription (live c) +:+ t) (live c);
       transcripts :=
         onTranscriptUpdate (currentOutputTranscription (live c) +:+ t)
           false false (date r 0) (transcripts c) |}.
Proof. unfold receive. by rewrite onmessage_delta_assistant. Qed.

Lemma receive_delta_user t r c :
  receive (Msg.transcriptDelta user t) r c =
    {| live := set_currentInputTranscription
                 (currentInputTranscription (live c) +:+ t) (live c);
       transcripts :=
         onTranscriptUpdate (currentInputTranscription (live c) +:+ t)
           true false (date r 0) (transcripts c) |}.
Proof. unfold receive. by rewrite onmessage_delta_user. Qed.

(** A turn complete when only the assistant has text pending. *)
Lemma receive_turnComplete_assistant r c :
  currentInputTranscription (live c) = "" →
  Js.truthy (Js.trim (currentOutputTranscription (live c))) = true →
  receive Msg.turnCompleteMarker r c =
    {| live := set_currentOutputTranscription "" (live c);
       transcripts :=
         onTranscriptUpdate (currentOutputTranscription (live c)) false true
           (date r 0) (transcripts c) |}.
Proof.
  intros Hin Hout. unfold receive. rewrite onmessage_turnComplete. unfold seq.
  rewrite finalizeInput_empty by done. unfold finalizeOutput. by rewrite Hout.
Qed.

(** C5. From an empty transcript, two assistant deltas [a] and [b] whose
    merged text is not blank give exactly one entry, non-final, with the
    merged text; the turn complete that follows makes that entry final with
    the same text and empties the assistant's buffer; the next assistant
    delta is appended as a new non-final entry. The claim's case is
    a = "Hel", b = "lo". *)
Theorem C5_merge_then_finalize (a b d : string) r1 r2 r3 r4
    inCtx outCtx t0 stream st0 :
  Js.truthy (Js.trim (a +:+ b)) = true →
  let c0 := startCall inCtx outCtx t0 stream st0 in
  let c2 := receiveAll [(Msg.transcriptDelta assistant a, r1);
                        (Msg.transcriptDelta assistant b, r2)] c0 in
  let c3 := receive Msg.turnCompleteMarker r3 c2 in
  let c4 := receive (Msg.transcriptDelta assistant d) r4 c3 in
  transcripts c2 =
    [{| role := assistant; text := a +:+ b; timestamp := date r2 0;
        isPartial := true |}] ∧
  transcripts c3 =
    [{| role := assistant; text := a +:+ b; timestamp := date r3 0;
        isPartial := false |}] ∧
  currentOutputTranscription (live c3) = "" ∧
  transcripts c4 =
    [{| role := assistant; text := a +:+ b; timestamp := date r3 0;
        isPartial := false |};
     {| role := assistant; text := d; timestamp := date r4 0;
        isPartial := true |}].
Proof.
  intros Hab. cbv zeta. cbn [receiveAll].
  rewrite !receive_delta_assistant.
  by rewrite !receive_turnComplete_assistant.
Qed.

(** "Hel" then "lo", then the turn complete. *)
Lemma C5_witness :
  let c2 := receiveAll [(Msg.transcriptDelta assistant "Hel", Examples.at_ 11 0);
                        (Msg.transcriptDelta assistant "lo", Examples.at_ 12 0)]
              Examples.opened in
  transcripts c2 =
    [{| role := assistant; text := "Hello"; timestamp := 0; isPartial := true |}] ∧
  transcripts (receive Msg.turnCompleteMarker (Examples.at_ 13 0) c2) =
    [{| role := assistant; text := "Hello"; timestamp := 0; isPartial := false |}].
Proof.
  pose proof (C5_merge_then_finalize "Hel" "lo" "!" (Examples.at_ 11 0)
                (Examples.at_ 12 0) (Examples.at_ 13 0) (Examples.at_ 14 0)
                1%N 2%N 10%Q [3%N] Examples.idle eq_refl) as (H2 & H3 & _).
  split; [exact H2 | exact H3].
Defined.

(** C7, counterexample. After "Hi" from the user and "Hello" from the
    assistant, a further user delta "!" does not update the user's entry:
    the entry still reads "Hi" and a third entry is appended. *)
Lemma C7_counterexample :
  let c2 := receiveAll [(Msg.transcriptDelta user "Hi", Examples.at_ 11 0);
                        (Msg.transcriptDelta assistant "Hello", Examples.at_ 12 0)]
              Examples.opened in
  let c3 := receive (Msg.transcriptDelta user "!") (Examples.at_ 13 0) c2 in
  view (transcripts c3) =
    [(user, "Hi", true); (assistant, "Hello", true); (user, "Hi!", true)] ∧
  view (transcripts c3) ≠ [(user, "Hi!", true); (assistant, "Hello", true)].
Proof. by split. Qed.

(** C7, amended. From an empty transcript, a user delta [u] then an
    assistant delta [a] give two non-final entries, one per role. A further
    assistant delta rewrites the assistant's entry, the last one, and leaves
    the user's entry alone; a further user delta leaves both entries alone
    and appends a new non-final user entry with the user's merged text. *)
Theorem C7_role_switch (u a d : string) r1 r2 r3 inCtx outCtx t0 stream st0 :
  let c0 := startCall inCtx outCtx t0 stream st0 in
  let c2 := receiveAll [(Msg.transcriptDelta user u, r1);
                        (Msg.transcriptDelta assistant a, r2)] c0 in
  let userEntry :=
    {| role := user; text := u; timestamp := date r1 0; isPartial := true |} in
  let assistantEntry :=
    {| role := assistant; text := a; timestamp := date r2 0; isPartial := true |} in
  transcripts c2 = [userEntry; assistantEntry] ∧
  transcripts (receive (Msg.transcriptDelta assistant d) r3 c2) =
    [userEntry;
     {| role := assistant; text := a +:+ d; timestamp := date r3 0;
        isPartial := true |}] ∧
  transcripts (receive (Msg.transcriptDelta user d) r3 c2) =
    [userEntry; assistantEntry;
     {| role := user; text := u +:+ d; timestamp := date r3 0;
        isPartial := true |}].
Proof.
  cbv zeta. cbn [receiveAll].
  by rewrite !receive_delta_assistant, !receive_delta_user.
Qed.

End Reconciliation.

Section TranscriptInvariant.
Import Gemini App Transcript.

Lemma insert_last {A} (init : list A) (x y : A) :
  <[length (init ++ [x]) - 1 := y]> (init ++ [x]) = init ++ [y].
Proof.
  rewrite length_app. simpl.
  replace (length init + 1 - 1) with (length init + 0) by lia.
  by rewrite insert_app_r.
Qed.

Lemma alternating_nil : alternating [].
Proof. intros i e1 e2 H. by rewrite lookup_nil in H. Qed.

Lemma alternating_snoc l y :
  alternating (l ++ [y]) ↔
  alternating l ∧
  (∀ x, last l = Some x → isPartial x = true → isPartial y = true →
        role x ≠ role y).
Proof.
  split.
  - intros H. split.
    + intros i e1 e2 H1 H2. apply (H i); by apply lookup_app_l_Some.
    + intros x Hx. apply last_Some in Hx as [init ->].
      apply (H (length init)).
      * rewrite <- app_assoc. by apply list_lookup_middle.
      * rewrite lookup_app_r; rewrite length_app; simpl; [|lia].
        by replace (S (length init) - (length init + 1)) with 0 by lia.
  - intros [Hl Hy] i e1 e2 H1 H2.
    destruct (decide (S i < length l)) as [Hlt|Hge].
    + rewrite lookup_app_l in H1 by lia. rewrite lookup_app_l in H2 by lia.
      by apply (Hl i).
    + apply lookup_lt_Some in H2 as Hlen. rewrite length_app in Hlen.
      simpl in Hlen. assert (S i = length l) as Hi by lia.
      rewrite lookup_app_l in H1 by lia.
      rewrite lookup_app_r in H2 by lia.
      replace (S i - length l) with 0 in H2 by lia. injection H2 as <-.
      apply Hy. rewrite last_lookup. by rewrite <- Hi.
Qed.

Lemma onTranscriptUpdate_alternating text isUser isFinal now prev :
  alternating prev →
  alternating (onTranscriptUpdate text isUser isFinal now prev).
Proof.
  intros Hprev. unfold onTranscriptUpdate.
  destruct (last prev) as [l|] eqn:Hlast.
  - apply last_Some in Hlast as Hsnoc. destruct Hsnoc as [init ->].
    apply alternating_snoc in Hprev as Hinit. destruct Hinit as [Hinit Hl].
    destruct isFinal, (isPartial l) eqn:Hp; simpl;
      try (case_bool_decide as Hr; simpl);
      rewrite ?insert_last; apply alternating_snoc; split;
      try done; try (intros x Hx; simpl; congruence).
  - apply last_None in Hlast as ->. destruct isFinal; simpl;
      apply (alternating_snoc []); split; try apply alternating_nil;
      intros x Hx; discriminate.
Qed.

Lemma onTranscriptUpdate_settled text isUser isFinal now prev i e :
  settled prev i e →
  settled (onTranscriptUpdate text isUser isFinal now prev) i e.
Proof.
  intros [Hi He]. unfold onTranscriptUpdate.
  assert (Happ : ∀ y, settled (prev ++ [y]) i e).
  { intros y. split; [by apply lookup_app_l_Some|].
    left. apply lookup_lt_Some in Hi. rewrite length_app. simpl. lia. }
  assert (Hins : ∀ l y, last prev = Some l → isPartial l = true →
                        settled (<[length prev - 1 := y]> prev) i e).
  { intros l y Hl Hp. rewrite last_lookup in Hl.
    assert (i ≠ length prev - 1) as Hne.
    { intros ->. destruct He as [He|He]; [lia|].
      replace (Nat.pred (length prev)) with (length prev - 1) in Hl by lia.
      congruence. }
    split; [by rewrite list_lookup_insert_ne|].
    rewrite length_insert. exact He. }
  destruct (last prev) as [l|] eqn:Hlast; [|by destruct isFinal].
  destruct isFinal, (isPartial l) eqn:Hp; simpl; try done;
    case_bool_decide; simpl; eauto.
Qed.

Lemma deliver_alternating date k acts prev :
  alternating prev → alternating (deliver date k acts prev).
Proof.
  revert k prev. induction acts as [|[]]; simpl; intros k prev H; auto.
  by apply IHacts, onTranscriptUpdate_alternating.
Qed.

Lemma deliver_settled date k acts prev i e :
  settled prev i e → settled (deliver date k acts prev) i e.
Proof.
  revert k prev. induction acts as [|[]]; simpl; intros k prev H; auto.
  by apply IHacts, onTranscriptUpdate_settled.
Qed.

Lemma receiveAll_alternating ms c :
  alternating (transcripts c) → alternating (transcripts (receiveAll ms c)).
Proof.
  revert c. induction ms as [|[m r] ms IH]; intros c H; [done|].
  simpl. apply IH. unfold receive. destruct (onmessage m r (live c)).
  by apply deliver_alternating.
Qed.

Lemma receiveAll_settled ms c i e :
  settled (transcripts c) i e → settled (transcripts (receiveAll ms c)) i e.
Proof.
  revert c. induction ms as [|[m r] ms IH]; intros c H; [done|].
  simpl. apply IH. unfold receive. destruct (onmessage m r (live c)).
  by apply deliver_settled.
Qed.

(** C6, counterexample. After "Hi" from the user and "Hello" from the
    assistant the transcript holds two non-final entries, the first of which
    is not the last entry. *)
Lemma C6_counterexample :
  let c := receiveAll [(Msg.transcriptDelta user "Hi", Examples.at_ 11 0);
                       (Msg.transcriptDelta assistant "Hello", Examples.at_ 12 0)]
             Examples.opened in
  transcripts c =
    [{| role := user; text := "Hi"; timestamp := 0; isPartial := true |};
     {| role := assistant; text := "Hello"; timestamp := 0; isPartial := true |}] ∧
  ¬ singleTrailingPartial (transcripts c).
Proof.
  split; [done|]. intros H.
  specialize (H 0 _ eq_refl eq_refl). discriminate H.
Qed.

(** C6, amended. After every sequence of messages from the start of a
    call, two neighbouring non-final entries of the transcript never have
    the same role (there may be several non-final entries, and not only at
    the end); and from then on an entry that is followed by another entry,
    or that is final, stays at its index with its role, text, timestamp and
    flag whatever messages follow. *)
Theorem C6_transcript_invariant inCtx outCtx t0 stream st0
    (ms : list (LiveServerMessage * Readings)) :
  let c := receiveAll ms (startCall inCtx outCtx t0 stream st0) in
  alternating (transcripts c) ∧
  ∀ ms' i e, settled (transcripts c) i e →
             settled (transcripts (receiveAll ms' c)) i e.
Proof.
  split.
  - apply receiveAll_alternating, alternating_nil.
  - intros ms' i e. apply receiveAll_settled.
Qed.

(** After "Hi" and "Hello", the user's entry is followed by the assistant's
    and stays as it is when the turn completes. *)
Lemma C6_witness :
  let c := receiveAll [(Msg.transcriptDelta user "Hi", Examples.at_ 11 0);
                       (Msg.transcriptDelta assistant "Hello", Examples.at_ 12 0)]
             Examples.opened in
  let e := {| role := user; text := "Hi"; timestamp := 0; isPartial := true |} in
  settled (transcripts c) 0 e ∧
  settled (transcripts (receive Msg.turnCompleteMarker (Examples.at_ 13 0) c)) 0 e.
Proof.
  assert (H : settled
                (transcripts
                   (receiveAll
                      [(Msg.transcriptDelta user "Hi", Examples.at_ 11 0);
                       (Msg.transcriptDelta assistant "Hello", Examples.at_ 12 0)]
                      Examples.opened)) 0
                {| role := user; text := "Hi"; timestamp := 0; isPartial := true |}).
  { split; [reflexivity|]. left. simpl. lia. }
  split; [exact H|].
  exact (proj2 (C6_transcript_invariant 1%N 2%N 10%Q [3%N] Examples.idle
                  [(Msg.transcriptDelta user "Hi", Examples.at_ 11 0);
                   (Msg.transcriptDelta assistant "Hello", Examples.at_ 12 0)])
               [(Msg.turnCompleteMarker, Examples.at_ 13 0)] 0 _ H).
Defined.

End TranscriptInvariant.

Section Teardown.
Import Gemini.

(** C9. A second [stopLiveSession] releases nothing and leaves the state
    as the first call left it, whatever the state before the first call; as
    it calls nothing, nothing can throw. *)
Theorem C9_stopLiveSession_idempotent st :
  let '(st1, _) := stopLiveSession st in
  stopLiveSession st1 = (st1, []).
Proof.
  unfold stopLiveSession, stopCapture, stopMediaStream, stopSession,
    stopAudioContext, stopInputAudioContext, seq.
  destruct st as [ac ic ms p si n se ci co].
  destruct p, ic, ms, se, ac; reflexivity.
Qed.

(** After [stopLiveSession] the stream, the session and both audio contexts
    are gone. *)
Lemma stopLiveSession_released st :
  let st1 := (stopLiveSession st).1 in
  mediaStream st1 = None ∧ session st1 = None ∧
  audioContext st1 = None ∧ inputAudioContext st1 = None.
Proof.
  unfold stopLiveSession, stopCapture, stopMediaStream, stopSession,
    stopAudioContext, stopInputAudioContext, seq.
  destruct st as [ac ic ms p si n se ci co].
  by destruct p, ic, ms, se, ac.
Qed.

End Teardown.

Section CapturePath.
Import Gemini.
Variable Math_sqrt : Q → Q.
Variable createPcmBlob : list Q → string.

Abbreviation step := (captureStep Math_sqrt createPcmBlob).
Abbreviation run := (captureRun Math_sqrt createPcmBlob).





End CapturePath.

Section CaptureExamples.
Import Gemini.



End CaptureExamples.

Section TwilioCall.
Import Twilio.

(** C10. If the account SID, the auth token or the Twilio phone number is
    the empty string, [makeTwilioCall] rejects with "Missing Twilio
    credentials" and hands no request to [fetch]. *)
Theorem C10_missing_credentials btoa fetch config customerNumber userRealPhoneNumber :
  accountSid config = "" ∨ authToken config = "" ∨ myPhoneNumber config = "" →
  makeTwilioCall btoa fetch config customerNumber userRealPhoneNumber =
    (inl {| name := "Error"; message := "Missing Twilio credentials" |}, []).
Proof.
  intros H. unfold makeTwilioCall.
  destruct H as [-> | [-> | ->]]; change (Js.truthy "") with false; simpl;
    by repeat destruct (Js.truthy _).
Qed.

(** A configuration without auth token. *)
Lemma C10_witness :
  let config := {| accountSid := "AC123"; authToken := "";
                   myPhoneNumber := "+12054420312"; verifiedCallerId := None |} in
  makeTwilioCall (λ s, s) (λ _, inl (Error "unreachable")) config
    "+15550100" "+15550101" =
    (inl (Error "Missing Twilio credentials"), []).
Proof.
  exact (C10_missing_credentials (λ s, s) (λ _, inl (Error "unreachable"))
           {| accountSid := "AC123"; authToken := "";
              myPhoneNumber := "+12054420312"; verifiedCallerId := None |}
           "+15550100" "+15550101" (or_intror (or_introl eq_refl))).
Defined.

End TwilioCall.

(** * Further properties *)

Section PlaybackClock.
Import Gemini Playback Schedule.

Lemma onmessages_cons m r ms st :
  onmessages ((m, r) :: ms) st =
    let '(st1, a1) := onmessage m r st in
    let '(st2, a2) := onmessages ms st1 in
    (st2, a1 ++ a2).
Proof. reflexivity. Qed.

Lemma handleAudioOutput_clock m r st :
  (0 <= duration (decoded r))%Q →
  (nextStartTime st <= nextStartTime (handleAudioOutput m r st).1)%Q.
Proof.
  intros Hd. unfold handleAudioOutput.
  destruct (inlineData m) as [b|], (audioContext st); try apply Qle_refl.
  destruct (Js.truthy b); [|apply Qle_refl]. simpl.
  apply Qle_trans with (Qmax (nextStartTime st) (currentTime_chunk r)).
  - apply Q.le_max_l.
  - rewrite <- (Qplus_0_r (Qmax _ _)) at 1. by apply Qplus_le_r.
Qed.






(** X2. Without an interruption, and with buffers of non-negative
    duration, nextStartTime never moves backwards. *)
Theorem X2_clock_never_moves_back ms st :
  Forall (λ mr, interrupted mr.1 = false ∧
                (0 <= duration (decoded mr.2))%Q) ms →
  (nextStartTime st <= nextStartTime (onmessages ms st).1)%Q.
Proof.
  revert st. induction ms as [|[m r] ms IH]; intros st Hms; [apply Qle_refl|].
  apply Forall_cons in Hms as [[Hi Hd] Hms]. simpl in Hi, Hd.
  destruct (onmessage_schedule m r st Hi) as [_ Hn].
  pose proof (handleAudioOutput_clock m r st Hd) as Hmono.
  rewrite onmessages_cons.
  destruct (onmessage m r st) as [st1 a1]. specialize (IH st1 Hms).
  destruct (onmessages ms st1) as [st2 a2]. simpl in *.
  apply Qle_trans with (nextStartTime st1); [by rewrite Hn | exact IH].
Qed.

Lemma X2_witness :
  (10 <= nextStartTime
           (onmessages Examples.twoChunks (App.live Examples.opened)).1)%Q.
Proof.
  apply (X2_clock_never_moves_back Examples.twoChunks (App.live Examples.opened)).
  repeat constructor; simpl; discriminate.
Defined.



End PlaybackClock.

Section AfterTeardown.
Import Gemini Playback.

Lemma transcript_blocks_keep_context m st :
  audioContext ((handleTranscriptions m ;;; handleTurnComplete m) st).1 =
  audioContext st.
Proof.
  unfold seq, handleTranscriptions, handleTurnComplete, finalizeInput,
    finalizeOutput, skip, seq.
  destruct (outputTranscription m), (inputTranscription m), (turnComplete m);
    simpl;
    repeat (match goal with
            | |- context [Js.truthy (Js.trim ?s)] =>
                destruct (Js.truthy (Js.trim s)); simpl
            end); reflexivity.
Qed.

(** Without an audio context only the transcript blocks of the handler
    run. *)
Lemma onmessage_without_context m r st :
  audioContext st = None →
  onmessage m r st = (handleTranscriptions m ;;; handleTurnComplete m) st.
Proof.
  intros Hc. pose proof (transcript_blocks_keep_context m st) as Hk.
  assert (handleAudioOutput m r st = (st, [])) as Ha.
  { unfold handleAudioOutput. rewrite Hc. by destruct (inlineData m). }
  unfold onmessage, seq in Hk |- *. rewrite Ha.
  destruct (handleTranscriptions m st) as [st1 a1].
  destruct (handleTurnComplete m st1) as [st2 a2]. simpl in *.
  unfold handleInterruption. rewrite Hk, Hc. by rewrite app_nil_r.
Qed.

(** X4. A message that arrives after [stopLiveSession] cannot touch the
    playback: it starts no buffer, reports no amplitude and leaves
    nextStartTime alone, even with an audio payload or the interruption
    marker. Its transcriptions and its turn complete marker are still
    handled as in a live session. *)
Theorem X4_late_message_after_stop m r st :
  let st1 := (stopLiveSession st).1 in
  let out := onmessage m r st1 in
  out = (handleTranscriptions m ;;; handleTurnComplete m) st1 ∧
  scheduled out.2 = [] ∧
  (∀ amplitude, OnAudioData amplitude ∉ out.2) ∧
  nextStartTime out.1 = nextStartTime st ∧
  audioContext out.1 = None.
Proof.
  destruct (stopLiveSession_released st) as (_ & _ & Hc & _).
  assert (nextStartTime (stopLiveSession st).1 = nextStartTime st) as Hn.
  { unfold stopLiveSession, stopCapture, stopMediaStream, stopSession,
      stopAudioContext, stopInputAudioContext, seq.
    destruct st as [ac ic ms p si n se ci co].
    by destruct p, ic, ms, se, ac. }
  simpl. rewrite (onmessage_without_context m r _ Hc).
  pose proof (transcript_blocks_keep_context m (stopLiveSession st).1) as Hk.
  split; [done|].
  destruct (seq_quiet (handleTranscriptions m) (handleTurnComplete m)
              (stopLiveSession st).1 (handleTurnComplete_quiet m)) as [Hs Hq].
  destruct (handleTranscriptions_quiet m (stopLiveSession st).1) as [Hs' Hq'].
  split; [by rewrite Hs|]. split; [|split].
  - intros amplitude. unfold seq, handleTranscriptions, handleTurnComplete,
      finalizeInput, finalizeOutput, skip, seq.
    destruct (outputTranscription m), (inputTranscription m), (turnComplete m);
      simpl;
      repeat (match goal with
              | |- context [Js.truthy (Js.trim ?s)] =>
                  destruct (Js.truthy (Js.trim s)); simpl
              end);
      intros H; repeat (apply elem_of_cons in H as [?|H]; [done|]);
      by apply elem_of_nil in H.
  - by rewrite Hq, Hq'.
  - by rewrite Hk.
Qed.

End AfterTeardown.

Section Blank.
Import JsString.

Lemma blank_rev_app s acc :
  blank (String.rev_app s acc) = blank s && blank acc.
Proof.
  revert acc. induction s as [|c s IH]; intros acc; simpl; [done|].
  rewrite IH. simpl. by destruct (Js.isWhiteSpace c), (blank s), (blank acc).
Qed.

Lemma blank_rev s : blank (String.rev s) = blank s.
Proof. unfold String.rev. rewrite blank_rev_app. simpl. apply andb_true_r. Qed.

Lemma blank_trimStart s : blank (Js.trimStart s) = blank s.
Proof.
  induction s as [|c s IH]; simpl; [done|].
  destruct (Js.isWhiteSpace c) eqn:Hc; simpl; [done|]. by rewrite Hc.
Qed.

Lemma trimStart_blank s : blank s = true → Js.trimStart s = "".
Proof.
  induction s as [|c s IH]; simpl; [done|].
  destruct (Js.isWhiteSpace c); simpl; [exact IH | done].
Qed.

(** The test [s.trim()] of the handler fails exactly for the texts without
    any character other than white space. *)
Lemma truthy_trim s : Js.truthy (Js.trim s) = negb (blank s).
Proof.
  destruct (blank s) eqn:Hb; simpl.
  - unfold Js.trim, Js.trimEnd. by rewrite (trimStart_blank s Hb).
  - assert (blank (Js.trim s) = false) as Ht.
    { unfold Js.trim, Js.trimEnd.
      by rewrite blank_rev, blank_trimStart, blank_rev, blank_trimStart. }
    unfold Js.truthy. apply bool_decide_eq_true_2. intros E.
    rewrite E in Ht. discriminate.
Qed.

End Blank.

Section TurnBoundary.
Import Gemini App JsString Calls.

(** X5. A turn complete finalizes the user's text first and the
    assistant's text second, each only if it holds a character other than
    white space, and reports the text as buffered, untrimmed; a buffer that
    is finalized is emptied and a blank one is kept, so that both buffers
    are blank afterwards. *)
Theorem X5_turn_complete_finalizes_nonblank r st :
  let out := onmessage Msg.turnCompleteMarker r st in
  let i := currentInputTranscription st in
  let o := currentOutputTranscription st in
  out.2 = (if blank i then [] else [OnTranscriptUpdate i true true]) ++
          (if blank o then [] else [OnTranscriptUpdate o false true]) ∧
  currentInputTranscription out.1 = (if blank i then i else "") ∧
  currentOutputTranscription out.1 = (if blank o then o else "") ∧
  blank (currentInputTranscription out.1) = true ∧
  blank (currentOutputTranscription out.1) = true.
Proof.
  simpl. rewrite onmessage_turnComplete.
  unfold seq, finalizeInput, finalizeOutput. rewrite truthy_trim.
  destruct (blank (currentInputTranscription st)) eqn:Hi; simpl;
    rewrite truthy_trim;
    destruct (blank (currentOutputTranscription st)) eqn:Ho; simpl;
    by rewrite ?Hi, ?Ho.
Qed.

Lemma onTranscriptUpdate_length text isUser isFinal now prev :
  length prev ≤ length (onTranscriptUpdate text isUser isFinal now prev) ≤
  S (length prev).
Proof.
  unfold onTranscriptUpdate.
  destruct isFinal, (last prev) as [l|];
    try destruct (isPartial l && bool_decide (role l = roleOf isUser));
    rewrite ?length_insert, ?length_app; simpl; lia.
Qed.

(** X6. After a transcript callback the last entry of the transcript is
    the text just reported, with the caller's role, the current date and
    the partial flag of the call; the transcript has kept its length or
    grown by one entry. *)
Theorem X6_callback_sets_last_entry text isUser isFinal now prev :
  let next := onTranscriptUpdate text isUser isFinal now prev in
  last next = Some {| role := roleOf isUser; text := text; timestamp := now;
                      isPartial := negb isFinal |} ∧
  length prev ≤ length next ≤ S (length prev).
Proof.
  split; [|apply onTranscriptUpdate_length].
  unfold onTranscriptUpdate.
  destruct (last prev) as [l|] eqn:Hl.
  - apply last_Some in Hl as [init ->].
    destruct isFinal, (isPartial l) eqn:Hp; simpl;
      try (case_bool_decide as Hr; simpl);
      rewrite ?insert_last, ?last_snoc; try done.
    by rewrite Hr.
  - by destruct isFinal; rewrite last_snoc.
Qed.

Lemma transcriptUpdates_app a1 a2 :
  transcriptUpdates (a1 ++ a2) = transcriptUpdates a1 ++ transcriptUpdates a2.
Proof. apply omap_app. Qed.

Lemma deliver_length date k acts prev :
  length prev ≤ length (deliver date k acts prev) ≤
  length prev + length (transcriptUpdates acts).
Proof.
  revert k prev. induction acts as [|[] acts IH]; intros k prev; simpl;
    try apply IH; [lia|].
  pose proof (onTranscriptUpdate_length text0 isUser isFinal (date k) prev).
  pose proof (IH (S k) (onTranscriptUpdate text0 isUser isFinal (date k) prev)).
  lia.
Qed.

(** The calls of a run are those of its four blocks, in order. *)
Lemma onmessage_actions m r st :
  ∃ s1 s2 s3,
    (onmessage m r st).2 =
      (handleAudioOutput m r st).2 ++ (handleTranscriptions m s1).2 ++
      (handleTurnComplete m s2).2 ++ (handleInterruption m r s3).2.
Proof.
  unfold onmessage, seq.
  destruct (handleAudioOutput m r st) as [s1 a1].
  destruct (handleTranscriptions m s1) as [s2 a2] eqn:E2.
  destruct (handleTurnComplete m s2) as [s3 a3] eqn:E3.
  destruct (handleInterruption m r s3) as [s4 a4] eqn:E4.
  exists s1, s2, s3. rewrite E2, E3, E4. simpl. by rewrite <- !app_assoc.
Qed.

(** The transcript callbacks of one run: at most one delta, then the
    finalizations, which need the turn complete marker. *)
Lemma onmessage_updates m r st :
  ∃ delta finals,
    transcriptUpdates (onmessage m r st).2 = delta ++ finals ∧
    length delta ≤ 1 ∧ length finals ≤ 2 ∧
    Forall (λ c, c.2 = false) delta ∧ Forall (λ c, c.2 = true) finals ∧
    (turnComplete m = false → finals = []).
Proof.
  destruct (onmessage_actions m r st) as (s1 & s2 & s3 & ->).
  rewrite !transcriptUpdates_app.
  assert (transcriptUpdates (handleAudioOutput m r st).2 = []) as ->.
  { unfold handleAudioOutput.
    destruct (inlineData m) as [b|], (audioContext st); try done.
    by destruct (Js.truthy b). }
  assert (transcriptUpdates (handleInterruption m r s3).2 = []) as ->.
  { unfold handleInterruption.
    by destruct (audioContext s3), (interrupted m). }
  rewrite app_nil_r. simpl.
  exists (transcriptUpdates (handleTranscriptions m s1).2),
         (transcriptUpdates (handleTurnComplete m s2).2).
  split; [done|].
  unfold handleTranscriptions, handleTurnComplete, seq, finalizeInput,
    finalizeOutput, skip.
  destruct (outputTranscription m), (inputTranscription m), (turnComplete m);
    simpl;
    repeat (match goal with
            | |- context [Js.truthy (Js.trim ?s)] =>
                destruct (Js.truthy (Js.trim s)); simpl
            end);
    repeat split; try lia; try done; repeat constructor.
Qed.

(** X7. A message without the turn complete marker finalizes nothing and
    makes at most one transcript callback; any message makes at most three,
    the non-final one first. *)
Theorem X7_callbacks_of_a_message m r st :
  let updates := transcriptUpdates (onmessage m r st).2 in
  length updates ≤ 3 ∧
  (∀ i j a b, updates !! i = Some a → updates !! j = Some b →
              a.2 = true → b.2 = false → j < i) ∧
  (turnComplete m = false →
   length updates ≤ 1 ∧ Forall (λ c, c.2 = false) updates).
Proof.
  destruct (onmessage_updates m r st)
    as (delta & finals & -> & Hd & Hf & Hnf & Hfin & Htc).
  simpl. split; [rewrite length_app; lia|]. split.
  - intros i j a b Hi Hj Ha Hb.
    apply lookup_app_Some in Hi as [Hi|[Hlen Hi]].
    { eapply Forall_lookup_1 in Hnf; [|exact Hi]. congruence. }
    apply lookup_app_Some in Hj as [Hj|[_ Hj]].
    { apply lookup_lt_Some in Hj. lia. }
    eapply Forall_lookup_1 in Hfin; [|exact Hj]. congruence.
  - intros Hm. rewrite (Htc Hm), app_nil_r. by split.
Qed.

(** X8. The transcript never loses an entry: over any run of messages its
    length does not decrease, and it grows by at most three entries per
    message. *)
Theorem X8_transcript_only_grows ms c :
  length (transcripts c) ≤ length (transcripts (receiveAll ms c)) ≤
  length (transcripts c) + 3 * length ms.
Proof.
  revert c. induction ms as [|[m r] ms IH]; intros c; simpl; [lia|].
  specialize (IH (receive m r c)).
  assert (length (transcripts c) ≤ length (transcripts (receive m r c)) ≤
          length (transcripts c) + 3) as Hstep; [|lia].
  unfold receive.
  destruct (onmessage_updates m r (live c))
    as (delta & finals & Hu & Hd & Hf & _).
  destruct (onmessage m r (live c)) as [st acts]. simpl in *.
  pose proof (deliver_length (date r) 0 acts (transcripts c)) as Hl.
  rewrite Hu, length_app in Hl. lia.
Qed.

End TurnBoundary.

Section StalePartials.
Import Gemini App JsString Transcript.

Lemma onTranscriptUpdate_append text isUser isFinal now prev :
  (∀ l, last prev = Some l →
        isPartial l && bool_decide (role l = roleOf isUser) = false) →
  onTranscriptUpdate text isUser isFinal now prev =
    prev ++ [{| role := roleOf isUser; text := text; timestamp := now;
                isPartial := negb isFinal |}].
Proof.
  intros H. unfold onTranscriptUpdate.
  destruct (last prev) as [l|]; [rewrite (H l eq_refl)|]; by destruct isFinal.
Qed.

(** A turn complete when both sides have text pending. *)
Lemma receive_turnComplete_both r c :
  blank (currentInputTranscription (live c)) = false →
  blank (currentOutputTranscription (live c)) = false →
  transcripts (receive Msg.turnCompleteMarker r c) =
    onTranscriptUpdate (currentOutputTranscription (live c)) false true (date r 1)
      (onTranscriptUpdate (currentInputTranscription (live c)) true true
         (date r 0) (transcripts c)).
Proof.
  intros Hi Ho. unfold receive. rewrite onmessage_turnComplete.
  unfold seq, finalizeInput, finalizeOutput.
  rewrite truthy_trim, Hi. simpl. rewrite truthy_trim, Ho. by simpl.
Qed.

(** A turn in the usual order appends four entries. *)
Lemma usual_turn_transcript u a r1 r2 r3 c :
  currentInputTranscription (live c) = "" →
  currentOutputTranscription (live c) = "" →
  (∀ l, last (transcripts c) = Some l → isPartial l = false) →
  blank u = false → blank a = false →
  transcripts
    (receiveAll [(Msg.transcriptDelta user u, r1);
                 (Msg.transcriptDelta assistant a, r2);
                 (Msg.turnCompleteMarker, r3)] c) =
    transcripts c ++
    [{| role := user; text := u; timestamp := date r1 0; isPartial := true |};
     {| role := assistant; text := a; timestamp := date r2 0; isPartial := true |};
     {| role := user; text := u; timestamp := date r3 0; isPartial := false |};
     {| role := assistant; text := a; timestamp := date r3 1; isPartial := false |}].
Proof.
  intros Hi Ho Hlast Hu Ha. cbn [receiveAll].
  rewrite receive_turnComplete_both;
    rewrite receive_delta_assistant, receive_delta_user;
    cbn [live transcripts set_currentInputTranscription
         set_currentOutputTranscription currentInputTranscription
         currentOutputTranscription];
    rewrite ?Hi, ?Ho; try done.
  change ("" +:+ u) with u. change ("" +:+ a) with a.
  rewrite (onTranscriptUpdate_append u true false).
  2:{ intros l Hl. by rewrite (Hlast l Hl). }
  rewrite (onTranscriptUpdate_append a false false).
  2:{ intros l Hl. rewrite last_snoc in Hl. by injection Hl as <-. }
  rewrite (onTranscriptUpdate_append u true true).
  2:{ intros l Hl. rewrite last_snoc in Hl. by injection Hl as <-. }
  rewrite (onTranscriptUpdate_append a false true).
  2:{ intros l Hl. rewrite last_snoc in Hl. by injection Hl as <-. }
  simpl. by rewrite <- !app_assoc.
Qed.

(** X9. A turn in the usual order leaves stale entries: when the
    transcript does not end with a non-final entry and both buffers are
    empty, a user delta [u], an assistant delta [a] (neither blank) and the
    turn complete add four entries. The two non-final entries stay as they
    are, and the two final entries are appended after them. *)
Theorem X9_turn_leaves_stale_partials u a r1 r2 r3 c :
  currentInputTranscription (live c) = "" →
  currentOutputTranscription (live c) = "" →
  (∀ l, last (transcripts c) = Some l → isPartial l = false) →
  blank u = false → blank a = false →
  let c' := receiveAll [(Msg.transcriptDelta user u, r1);
                        (Msg.transcriptDelta assistant a, r2);
                        (Msg.turnCompleteMarker, r3)] c in
  transcripts c' =
    transcripts c ++
    [{| role := user; text := u; timestamp := date r1 0; isPartial := true |};
     {| role := assistant; text := a; timestamp := date r2 0; isPartial := true |};
     {| role := user; text := u; timestamp := date r3 0; isPartial := false |};
     {| role := assistant; text := a; timestamp := date r3 1; isPartial := false |}] ∧
  ∀ l, last (transcripts c') = Some l → isPartial l = false.
Proof.
  intros Hi Ho Hlast Hu Ha. cbv zeta.
  rewrite (usual_turn_transcript u a r1 r2 r3 c Hi Ho Hlast Hu Ha).
  split; [done|]. intros l Hl.
  change (transcripts c ++ _) with
    (transcripts c ++
     [{| role := user; text := u; timestamp := date r1 0; isPartial := true |};
      {| role := assistant; text := a; timestamp := date r2 0; isPartial := true |};
      {| role := user; text := u; timestamp := date r3 0; isPartial := false |}]
     ++ [{| role := assistant; text := a; timestamp := date r3 1;
            isPartial := false |}]) in Hl.
  rewrite app_assoc, last_snoc in Hl. by injection Hl as <-.
Qed.

Lemma X9_witness :
  view (transcripts
          (receiveAll [(Msg.transcriptDelta user "Hi", Examples.at_ 11 0);
                       (Msg.transcriptDelta assistant "Hello", Examples.at_ 12 0);
                       (Msg.turnCompleteMarker, Examples.at_ 13 0)]
             Examples.opened)) =
  [(user, "Hi", true); (assistant, "Hello", true);
   (user, "Hi", false); (assistant, "Hello", false)].
Proof.
  pose proof (X9_turn_leaves_stale_partials "Hi" "Hello" (Examples.at_ 11 0)
                (Examples.at_ 12 0) (Examples.at_ 13 0) Examples.opened
                eq_refl eq_refl) as H.
  rewrite (proj1 (H ltac:(intros l Hl; discriminate Hl) eq_refl eq_refl)).
  reflexivity.
Defined.

End StalePartials.

Section SessionLifecycle.
Import Gemini Lifecycle.
Variable Math_sqrt : Q → Q.
Variable createPcmBlob : list Q → string.

Abbreviation step' := (captureStep Math_sqrt createPcmBlob).
Abbreviation run' := (captureRun Math_sqrt createPcmBlob).
Abbreviation captured' := (captured Math_sqrt createPcmBlob).

Lemma startLiveSession_tidy inCtx outCtx t0 stream st :
  tidy st → tidy (startLiveSession inCtx outCtx t0 stream st).
Proof. intros [_ H2]. split; [by eexists | exact H2]. Qed.

Lemma stopLiveSession_tidy st :
  tidy st → released (stopLiveSession st).1.
Proof.
  intros [H1 H2]. unfold released, stopLiveSession, stopCapture,
    stopMediaStream, stopSession, stopAudioContext, stopInputAudioContext, seq.
  destruct st as [ac ic ms p si n se ci co]. simpl in *.
  destruct p as [p|].
  - destruct (H1 ltac:(by eexists)) as [i ->]. by destruct ms, se, ac.
  - rewrite (H2 eq_refl). by destruct ic, ms, se, ac.
Qed.

Lemma released_tidy st : released st → tidy st.
Proof.
  intros (_ & _ & _ & Hp & Hs & _). split; [|done].
  rewrite Hp. by intros [? ?].
Qed.

Lemma captureStep_tidy s e : tidy s.1 → tidy (step' s e).1.
Proof.
  destruct s as [st u]. intros Ht. destruct e; simpl; try done.
  - unfold onopen. destruct (inputAudioContext st) eqn:Hi; [|done].
    destruct (mediaStream st); [|done]. split; simpl; [|done].
    intros _. rewrite Hi. by eexists.
  - by destruct (capturing u).
  - by destruct (sessionPromise u).
  - by apply released_tidy, stopLiveSession_tidy.
Qed.

Lemma captureRun_tidy es s : tidy s.1 → tidy (run' es s).1.
Proof.
  revert s. induction es as [|e es IH]; intros s Ht; [done|].
  simpl. by apply IH, captureStep_tidy.
Qed.

(** X10. Teardown leaves nothing behind: start a session from a tidy
    module (no processor node without an input context, no source node
    without a processor), let the connection open, frames arrive, the
    promise settle and earlier stops happen in any order; after
    [stopLiveSession] both audio contexts, the stream, the processor, the
    source and the session are all gone. *)
Theorem X10_stop_releases_everything inCtx outCtx t0 stream st0 u es :
  tidy st0 →
  let s := run' es (startLiveSession inCtx outCtx t0 stream st0, u) in
  released (stopLiveSession s.1).1.
Proof.
  intros Ht. simpl. apply stopLiveSession_tidy, captureRun_tidy. simpl.
  by apply startLiveSession_tidy.
Qed.

(** X11. A late [onopen] finds nothing to attach to: after
    [stopLiveSession], whatever the module held before, any number of
    [onopen] calls leaves the module variables released as they are,
    attaches no capture callback and sends nothing. *)
Theorem X11_late_onopen_attaches_nothing st u es :
  Forall isOpen es →
  let s := run' es ((stopLiveSession st).1, u) in
  s.1 = (stopLiveSession st).1 ∧
  capturing s.2 = capturing u ∧
  sessionPromise s.2 = sessionPromise u ∧
  realtimeInput s.2 = realtimeInput u.
Proof.
  intros Hes. simpl.
  destruct (stopLiveSession_released st) as (Hm & _ & _ & Hi).
  revert u. induction Hes as [|e es He _ IH]; intros u; [done|].
  destruct e; try done. simpl.
  assert (onopen source proc (stopLiveSession st).1 = (stopLiveSession st).1)
    as -> by (unfold onopen; by rewrite Hi).
  assert (canCapture (stopLiveSession st).1 = false) as ->
    by (unfold canCapture; by rewrite Hi).
  rewrite orb_false_r.
  destruct (IH (set_capturing (capturing u)
                  match transport u with
                  | TransportOpening => set_transport TransportOpen u
                  | _ => u
                  end)) as (-> & -> & -> & ->).
  by destruct (transport u).
Qed.

Lemma run'_cons e es s : run' (e :: es) s = run' es (step' s e).
Proof. reflexivity. Qed.

(** What a run does to the uplink, by the state of the promise before and
    after. *)
Lemma captureRun_uplink es s :
  match sessionPromise s.2, sessionPromise (run' es s).2 with
  | Pending q, Pending q' =>
      q' = q ++ captured' es s ∧ realtimeInput (run' es s).2 = realtimeInput s.2
  | Pending q, Fulfilled =>
      realtimeInput (run' es s).2 = realtimeInput s.2 ++ q ++ captured' es s
  | Fulfilled, Fulfilled =>
      realtimeInput (run' es s).2 = realtimeInput s.2 ++ captured' es s
  | Pending _, Rejected | Rejected, Rejected =>
      realtimeInput (run' es s).2 = realtimeInput s.2
  | _, _ => False
  end.
Proof.
  revert s. induction es as [|e es IH]; intros [st [pr ri tr cb]].
  - simpl. destruct pr; by rewrite ?app_nil_r.
  - rewrite run'_cons.
    specialize (IH (step' (st, {| sessionPromise := pr; realtimeInput := ri;
                                  transport := tr; capturing := cb |}) e)).
    cbn [captured].
    destruct e, pr; simpl in IH |- *;
      try destruct cb; try destruct tr; simpl in IH |- *;
      unfold thenSend, fulfil, reject in IH |- *; simpl in IH |- *;
      destruct (sessionPromise (run' es _).2);
      try done;
      try (match type of IH with
           | _ ∧ _ => destruct IH as [IH1 IH2]; rewrite IH1, ?IH2
           end);
      rewrite ?IH, <- ?app_assoc; done.
Qed.

(** X12. Frames reach the session in capture order, none twice and none
    invented: starting with a pending promise and nothing sent, after any
    run of events the blobs handed to [sendRealtimeInput] are exactly the
    blobs of all frames captured so far, in capture order, once the promise
    is fulfilled, and none at all while it is pending or after it was
    rejected. *)
Theorem X12_frames_sent_in_capture_order es st tr cb :
  let fresh := {| sessionPromise := Pending []; realtimeInput := [];
                  transport := tr; capturing := cb |} in
  let s := run' es (st, fresh) in
  realtimeInput s.2 =
    if sessionAvailable s.2 then captured' es (st, fresh) else [].
Proof.
  simpl. pose proof (captureRun_uplink es
           (st, {| sessionPromise := Pending []; realtimeInput := [];
                   transport := tr; capturing := cb |})) as H.
  simpl in H. unfold sessionAvailable.
  destruct (sessionPromise (run' es _).2); [by destruct H | done | done].
Qed.

End SessionLifecycle.

Section LifecycleExamples.
Import Gemini Lifecycle.

Lemma idle_tidy : tidy Examples.idle.
Proof. split; [by intros [? ?] | done]. Defined.

(** A session that opened, captured a frame and was stopped. *)
Lemma X10_witness :
  released
    (stopLiveSession
       (captureRun (λ q, q) (λ _, "pcm")
          [Open 4%N 5%N; Frame [0%Q; 1 # 2];
           Resolve {| closeIsFunction := true |}]
          (startLiveSession 1%N 2%N 10 [3%N] Examples.idle, connecting)).1).1.
Proof.
  exact (X10_stop_releases_everything (λ q, q) (λ _, "pcm") 1%N 2%N 10 [3%N]
           Examples.idle connecting
           [Open 4%N 5%N; Frame [0%Q; 1 # 2];
            Resolve {| closeIsFunction := true |}] idle_tidy).
Defined.

(** Two late opens after the stop of a freshly started session. *)
Lemma X11_witness :
  let st := (stopLiveSession (App.live Examples.opened)).1 in
  (captureRun (λ q, q) (λ _, "pcm") [Open 6%N 7%N; Open 8%N 9%N]
     (st, connecting)).1 = st.
Proof.
  refine (proj1 (X11_late_onopen_attaches_nothing (λ q, q) (λ _, "pcm")
                   (App.live Examples.opened) connecting
                   [Open 6%N 7%N; Open 8%N 9%N] _)).
  repeat constructor.
Defined.

End LifecycleExamples.

Section Amplitude.
Import Gemini.

Lemma square_nonneg (x : Q) : (0 <= x * x)%Q.
Proof. unfold Qle. simpl. rewrite Z.mul_1_r. apply Z.square_nonneg. Qed.

Lemma foldl_squares (acc : Q) (inputData : list Q) :
  (foldl (λ sum x, sum + x * x) acc inputData == acc + sumOfSquares inputData)%Q.
Proof.
  unfold sumOfSquares. revert acc.
  induction inputData as [|x inputData IH]; intros acc; simpl; [lra|].
  rewrite (IH (acc + x * x)%Q), (IH (0 + x * x)%Q). lra.
Qed.

Lemma sumOfSquares_cons x (inputData : list Q) :
  (sumOfSquares (x :: inputData) == x * x + sumOfSquares inputData)%Q.
Proof.
  unfold sumOfSquares at 1. simpl. rewrite foldl_squares. lra.
Qed.

(** X13. The loop of the capture callback never hands a negative number to
    [Math.sqrt]: the sum of squares of a block is non-negative, and it is
    zero exactly for a block of silence. *)
Theorem X13_sum_of_squares (inputData : list Q) :
  (0 <= sumOfSquares inputData)%Q ∧
  ((sumOfSquares inputData == 0)%Q ↔ Forall (λ x, (x == 0)%Q) inputData).
Proof.
  induction inputData as [|x inputData [IH0 IHz]].
  - split; [apply Qle_refl|]. split; [constructor | reflexivity].
  - pose proof (square_nonneg x) as Hx.
    pose proof (sumOfSquares_cons x inputData) as Hc.
    split; [lra|]. split.
    + intros H. assert (x * x == 0)%Q as Hxx by lra.
      constructor.
      * by destruct (Qmult_integral _ _ Hxx).
      * apply IHz. lra.
    + intros H. apply Forall_cons in H as [Hx0 Hrest].
      apply IHz in Hrest. rewrite Hc, Hrest, Hx0. lra.
Qed.

End Amplitude.

Section Includes.
Import JsString.

Lemma includes_app_r a b needle :
  includes b needle = true → includes (a +:+ b) needle = true.
Proof.
  intros H. induction a as [|c a IH]; [exact H|].
  change (String c a +:+ b) with (String c (a +:+ b)).
  cbn [includes]. rewrite IH. apply orb_true_r.
Qed.

End Includes.

Section PlacingTheCall.
Import Twilio StartCall JsString.
Variable btoa : string → string.
Variable fetch : Request → JsError + Response.

Lemma truthy_nonempty s : Js.truthy s = true ↔ s ≠ "".
Proof. unfold Js.truthy. apply bool_decide_eq_true. Qed.

(** With the three credentials at hand the guard lets the call through. *)
Lemma makeTwilioCall_guard_passed config customerNumber userRealPhoneNumber :
  accountSid config ≠ "" → authToken config ≠ "" → myPhoneNumber config ≠ "" →
  ∃ request,
    url request = "https://api.twilio.com/2010-04-01/Accounts/"
                    +:+ accountSid config +:+ "/Calls.json" ∧
    method request = "POST" ∧
    body request = [("To", customerNumber); ("From", myPhoneNumber config);
                    ("Twiml", twiml userRealPhoneNumber)] ∧
    makeTwilioCall btoa fetch config customerNumber userRealPhoneNumber =
      (match fetch request with
       | inl error => inl (rethrow error)
       | inr response =>
           if negb (ok response) then
             match responseText response with
             | inl error => inl (rethrow error)
             | inr errorText =>
                 inl (rethrow (Error ("Twilio Error: " +:+ pretty (status response)
                                        +:+ " " +:+ statusText response
                                        +:+ " - " +:+ errorText)))
             end
           else
             match responseJson response with
             | inl error => inl (rethrow error)
             | inr json => inr json
             end
       end, [request]).
Proof.
  intros H1 H2 H3. unfold makeTwilioCall.
  apply truthy_nonempty in H1, H2, H3. rewrite H1, H2, H3. simpl.
  eexists. split; [|split; [|split]]; [| | |reflexivity]; reflexivity.
Qed.

(** X14. With the three credentials present, [makeTwilioCall] sends
    exactly one request, a POST to the Calls resource of the account with
    the customer as To and the Twilio number as From; it is fulfilled, with
    the parsed body, exactly when [fetch] resolves to an ok response whose
    body parses, and is rejected in every other case. *)
Theorem X14_call_fulfilled_iff config customerNumber userRealPhoneNumber :
  accountSid config ≠ "" → authToken config ≠ "" → myPhoneNumber config ≠ "" →
  let out := makeTwilioCall btoa fetch config customerNumber userRealPhoneNumber in
  ∃ request,
    out.2 = [request] ∧
    url request = "https://api.twilio.com/2010-04-01/Accounts/"
                    +:+ accountSid config +:+ "/Calls.json" ∧
    method request = "POST" ∧
    body request !! 0 = Some ("To", customerNumber) ∧
    body request !! 1 = Some ("From", myPhoneNumber config) ∧
    ∀ json, out.1 = inr json ↔
            ∃ response, fetch request = inr response ∧ ok response = true ∧
                        responseJson response = inr json.
Proof.
  intros H1 H2 H3.
  destruct (makeTwilioCall_guard_passed config customerNumber
              userRealPhoneNumber H1 H2 H3) as (request & Hu & Hm & Hb & ->).
  exists request. simpl. rewrite Hb. repeat split; try done.
  - destruct (fetch request) as [e|response]; [done|].
    destruct (ok response) eqn:Hok; simpl;
      [|by destruct (responseText response)].
    destruct (responseJson response) as [e|j] eqn:Hj; [done|].
    intros [= ->]. by exists response.
  - intros (response & -> & -> & ->). done.
Qed.


Lemma rethrow_Error msg : rethrow (Error msg) = Error msg.
Proof. reflexivity. Qed.

Lemma errorMessage_401 e :
  includes (message e) "401" = true → errorMessage e = authenticationFailed.
Proof.
  intros H. unfold errorMessage.
  assert (Js.truthy (message e) = true) as ->.
  { apply truthy_nonempty. intros E. rewrite E in H. discriminate H. }
  by rewrite H.
Qed.

(** X16. What the user is told when a placed call fails. If [fetch] is
    rejected with the TypeError "Failed to fetch", [makeTwilioCall] rejects
    with its own CORS error instead, for which handleStartCall shows the
    network error. If Twilio answers with an error response whose text can
    be read and whose status is 401, or whose text contains 401 anywhere,
    [makeTwilioCall] rejects with the Twilio error built from status, status
    text and text, for which handleStartCall shows the authentication
    failure. *)
Theorem X16_failure_reports config customerNumber userRealPhoneNumber :
  accountSid config ≠ "" → authToken config ≠ "" → myPhoneNumber config ≠ "" →
  let out := makeTwilioCall btoa fetch config customerNumber userRealPhoneNumber in
  ∀ request, out.2 = [request] →
    (fetch request = inl {| name := "TypeError"; message := "Failed to fetch" |} →
     out.1 = inl corsError ∧ errorMessage corsError = networkError) ∧
    (∀ response errorText,
       fetch request = inr response → ok response = false →
       responseText response = inr errorText →
       status response = 401%N ∨ includes errorText "401" = true →
       let e := Error ("Twilio Error: " +:+ pretty (status response) +:+ " "
                         +:+ statusText response +:+ " - " +:+ errorText) in
       out.1 = inl e ∧ errorMessage e = authenticationFailed).
Proof.
  intros H1 H2 H3.
  destruct (makeTwilioCall_guard_passed config customerNumber
              userRealPhoneNumber H1 H2 H3) as (request & _ & _ & _ & ->).
  simpl. intros ? [= <-]. split.
  - intros ->. split; reflexivity.
  - intros response errorText -> -> -> Hcause. cbn [negb].
    rewrite rethrow_Error. split; [reflexivity|].
    apply errorMessage_401. cbn [message Error].
    destruct Hcause as [-> | Hin].
    + vm_compute. reflexivity.
    + by do 5 apply includes_app_r.
Qed.

End PlacingTheCall.

Section PlacingTheCallExamples.
Import Twilio StartCall.

(** A call that Twilio accepts. *)
Lemma X14_witness :
  ∃ request,
    (makeTwilioCall (λ s, s) Examples.accepted Examples.twilioConfig
       "+15550100" "+15550101").2 = [request] ∧
    method request = "POST".
Proof.
  destruct (X14_call_fulfilled_iff (λ s, s) Examples.accepted
              Examples.twilioConfig "+15550100" "+15550101")
    as (request & Hlog & _ & Hm & _); [done|done|done|].
  exists request. split; [exact Hlog | exact Hm].
Defined.


(** Twilio answers 401. *)
Lemma X16_witness :
  (makeTwilioCall (λ s, s) Examples.unauthorized Examples.twilioConfig
     "+15550100" "+15550101").1 =
    inl (Error "Twilio Error: 401 Unauthorized - Authenticate") ∧
  errorMessage (Error "Twilio Error: 401 Unauthorized - Authenticate") =
    authenticationFailed.
Proof.
  refine (proj2 (X16_failure_reports (λ s, s) Examples.unauthorized
                   Examples.twilioConfig "+15550100" "+15550101" _ _ _ _ eq_refl)
                _ _ eq_refl eq_refl eq_refl (or_introl eq_refl)); done.
Defined.

End PlacingTheCallExamples.

Section SummaryInput.
Import Gemini App JsString Summary.

(** X17. The summary is asked about every entry, stale ones included: after
    a first turn in the usual order (user [u], assistant [a], turn
    complete) the conversation text of generateMeetingSummary lists each
    utterance twice, one line per entry, with the role in upper case. *)
Theorem X17_summary_lists_stale_entries u a r1 r2 r3 inCtx outCtx t0 stream st0 :
  blank u = false → blank a = false →
  let c := receiveAll [(Msg.transcriptDelta user u, r1);
                       (Msg.transcriptDelta assistant a, r2);
                       (Msg.turnCompleteMarker, r3)]
             (startCall inCtx outCtx t0 stream st0) in
  conversationText (transcripts c) =
    String.concat "
" ["USER: " +:+ u; "ASSISTANT: " +:+ a; "USER: " +:+ u; "ASSISTANT: " +:+ a].
Proof.
  intros Hu Ha. cbv zeta.
  rewrite (usual_turn_transcript u a r1 r2 r3); try done.
Qed.

Lemma X17_witness :
  conversationText
    (transcripts
       (receiveAll [(Msg.transcriptDelta user "Hi", Examples.at_ 11 0);
                    (Msg.transcriptDelta assistant "Hello", Examples.at_ 12 0);
                    (Msg.turnCompleteMarker, Examples.at_ 13 0)]
          Examples.opened)) =
  "USER: Hi
ASSISTANT: Hello
USER: Hi
ASSISTANT: Hello".
Proof.
  exact (X17_summary_lists_stale_entries "Hi" "Hello" (Examples.at_ 11 0)
           (Examples.at_ 12 0) (Examples.at_ 13 0) 1%N 2%N 10%Q [3%N]
           Examples.idle eq_refl eq_refl).
Defined.

End SummaryInput.

Section MergeInPlace.
Import Gemini App Transcript Deltas.

Lemma string_app_nil_r (s : string) : s +:+ "" = s.
Proof.
  induction s as [|c s IH]; [done|].
  change (String c (s +:+ "") = String c s). by rewrite IH.
Qed.

Lemma string_app_assoc (a b c : string) : (a +:+ b) +:+ c = a +:+ (b +:+ c).
Proof.
  induction a as [|x a IH]; [done|].
  change (String x ((a +:+ b) +:+ c) = String x (a +:+ (b +:+ c))).
  by rewrite IH.
Qed.

Lemma receive_delta ro t r c :
  transcripts (receive (Msg.transcriptDelta ro t) r c) =
    onTranscriptUpdate (bufferOf ro (live c) +:+ t)
      (bool_decide (ro = user)) false (date r 0) (transcripts c) ∧
  bufferOf ro (live (receive (Msg.transcriptDelta ro t) r c)) =
    bufferOf ro (live c) +:+ t.
Proof.
  destruct ro; [rewrite receive_delta_user | rewrite receive_delta_assistant];
    done.
Qed.

(** Further deltas of the role of a non-final last entry rewrite that
    entry. *)
Lemma deltas_rewrite_last ro trs c init e :
  transcripts c = init ++ [e] → role e = ro → isPartial e = true →
  text e = bufferOf ro (live c) →
  let c' := receiveAll (deltas ro trs) c in
  ∃ e', transcripts c' = init ++ [e'] ∧
        role e' = ro ∧ isPartial e' = true ∧
        text e' = bufferOf ro (live c) +:+ merged trs.*1 ∧
        bufferOf ro (live c') = text e'.
Proof.
  revert c e. induction trs as [|[t r] trs IH]; intros c e Hc Hr Hp Ht.
  - exists e. repeat split; try done.
    rewrite Ht. symmetry. apply string_app_nil_r.
  - cbn [deltas fmap list_fmap receiveAll fst snd].
    destruct (receive_delta ro t r c) as [Htr Hbuf].
    assert (transcripts (receive (Msg.transcriptDelta ro t) r c) =
            init ++ [{| role := ro; text := bufferOf ro (live c) +:+ t;
                        timestamp := date r 0; isPartial := true |}]) as Hnew.
    { rewrite Htr, Hc. unfold onTranscriptUpdate. rewrite last_snoc.
      cbv beta iota. rewrite Hp.
      assert (bool_decide (role e = roleOf (bool_decide (ro = user))) = true) as ->.
      { apply bool_decide_eq_true_2. rewrite Hr. by destruct ro. }
      cbv beta iota. cbn [andb]. by rewrite insert_last, Hr. }
    destruct (IH (receive (Msg.transcriptDelta ro t) r c) _ Hnew eq_refl eq_refl)
      as (e' & He' & Hr' & Hp' & Ht' & Hb'); [by rewrite Hbuf|].
    exists e'. split; [exact He'|]. split; [exact Hr'|]. split; [exact Hp'|].
    split; [|exact Hb'].
    rewrite Ht', Hbuf. simpl. by rewrite string_app_assoc.
Qed.

(** X18. Any number of deltas of one role merge into one entry: when the
    transcript does not end with a non-final entry of that role, one or
    more consecutive deltas of the role append exactly one entry; it is
    non-final and its text is the role's buffer followed by all the delta
    texts in order, which is also what the buffer holds afterwards. *)
Theorem X18_deltas_merge_into_one_entry ro t r trs c :
  (∀ l, last (transcripts c) = Some l →
        isPartial l = false ∨ role l ≠ ro) →
  let c' := receiveAll (deltas ro ((t, r) :: trs)) c in
  ∃ e, transcripts c' = transcripts c ++ [e] ∧
       role e = ro ∧ isPartial e = true ∧
       text e = bufferOf ro (live c) +:+ merged (t :: trs.*1) ∧
       bufferOf ro (live c') = text e.
Proof.
  intros Hlast. cbn [deltas fmap list_fmap receiveAll fst snd].
  destruct (receive_delta ro t r c) as [Htr Hbuf].
  assert (transcripts (receive (Msg.transcriptDelta ro t) r c) =
          transcripts c ++
          [{| role := ro; text := bufferOf ro (live c) +:+ t;
              timestamp := date r 0; isPartial := true |}]) as Hnew.
  { rewrite Htr, onTranscriptUpdate_append.
    - by destruct ro.
    - intros l Hl. destruct (Hlast l Hl) as [-> | Hne]; [done|].
      rewrite bool_decide_eq_false_2; [apply andb_false_r|].
      by destruct ro, (role l). }
  destruct (deltas_rewrite_last ro trs _ _ _ Hnew eq_refl eq_refl)
    as (e & He & Hr & Hp & Ht & Hb); [by rewrite Hbuf|].
  exists e. split; [exact He|]. split; [exact Hr|]. split; [exact Hp|].
  split; [|exact Hb].
  rewrite Ht, Hbuf. simpl. by rewrite string_app_assoc.
Qed.

(** Three assistant deltas after the user has spoken. *)
Lemma X18_witness :
  ∃ e, transcripts
         (receiveAll
            (deltas assistant [("Hel", Examples.at_ 12 0);
                               ("lo", Examples.at_ 13 0);
                               ("!", Examples.at_ 14 0)])
            (receive (Msg.transcriptDelta user "Hi") (Examples.at_ 11 0)
               Examples.opened)) =
       [{| role := user; text := "Hi"; timestamp := 0; isPartial := true |}; e] ∧
       text e = "Hello!".
Proof.
  destruct (X18_deltas_merge_into_one_entry assistant "Hel" (Examples.at_ 12 0)
              [("lo", Examples.at_ 13 0); ("!", Examples.at_ 14 0)]
              (receive (Msg.transcriptDelta user "Hi") (Examples.at_ 11 0)
                 Examples.opened))
    as (e & He & _ & _ & Ht & _).
  - intros l [= <-]. by right.
  - exists e. split; [exact He | exact Ht].
Defined.

End MergeInPlace.

Section DecodingFails.
Import Gemini Playback Calls Dispatch.

(** X19. A payload that cannot be decoded takes the rest of its message
    with it: while the audio context exists, a run whose non-empty audio
    payload fails to decode ends in the audio block. The amplitude has been
    reported and nextStartTime raised to the clock if the clock was ahead;
    no buffer is started, no transcript callback is made, both
    transcription buffers and every other variable stay as they were, and
    the handler throws, whatever transcriptions, turn complete or
    interruption marker the message carries. *)
Theorem X19_failed_decoding_ends_the_run m r st :
  hasAudio m → is_Some (audioContext st) →
  let out := onmessageAsync m r Throws st in
  out.2 = Thrown ∧
  out.1.2 = [OnAudioData (1 # 2)] ∧
  scheduled out.1.2 = [] ∧ transcriptUpdates out.1.2 = [] ∧
  out.1.1 = set_nextStartTime (Qmax (nextStartTime st) (currentTime_chunk r)) st ∧
  (∃ payload, dispatch Throws st m = [AudioChunk payload]) ∧
  (transcriptUpdates (onmessageAsync m r Resolves st).1.2 =
     transcriptUpdates ((handleTranscriptions m ;;; handleTurnComplete m) st).2).
Proof.
  intros (b & Hb & Hne) [c Hc].
  assert (Js.truthy b = true) as Ht by (by apply bool_decide_eq_true_2).
  unfold onmessageAsync, dispatch. rewrite Hb, Hc, Ht. simpl.
  repeat split; [by eexists|].
  unfold onmessage, seq, handleAudioOutput, handleTranscriptions,
    handleTurnComplete, handleInterruption, finalizeInput, finalizeOutput,
    skip, seq.
  rewrite Hb, Hc, Ht. simpl.
  destruct (outputTranscription m), (inputTranscription m), (turnComplete m);
    simpl; rewrite ?Hc; simpl;
    repeat (match goal with
            | |- context [Js.truthy (Js.trim ?s)] =>
                destruct (Js.truthy (Js.trim s)); simpl
            end);
    rewrite ?Hc; simpl; by destruct (interrupted m).
Qed.

(** The message with every field present, with a payload that does not
    decode. *)
Lemma X19_witness :
  (onmessageAsync Examples.everything (Examples.at_ 11 0) Throws
     (App.live Examples.opened)).1.2 = [OnAudioData (1 # 2)].
Proof.
  refine (proj1 (proj2 (X19_failed_decoding_ends_the_run Examples.everything
                          (Examples.at_ 11 0) (App.live Examples.opened) _ _))).
  - by eexists.
  - by eexists.
Defined.

End DecodingFails.
